(** * proglog: the record store and its offset index

    A shallow embedding of the store and of the index of package [log]
    ([internal/log]).  Go's fixed-width integers are [Z] with the
    wrap-around written out, byte slices are [list byte], and the operating
    system (one file, the buffered writer of package [bufio], the shared
    memory mapping of package [gommap]) is an explicit state that is threaded
    through every call.  A file carries a script of outcomes for the system
    calls still to come, so that I/O failures can be injected and the error
    paths of the code can be run. *)

From Stdlib Require Import ZArith List Lia Strings.Byte String Bool.
From stdpp Require Import base tactics list.

Local Open Scope Z_scope.

(** ** Go values: sized integers, errors, results *)

Module Go.

(** Conversions to [uint64], [uint32] and [int64] keep the low bits. *)
Definition uint64 (z : Z) : Z := z mod 2 ^ 64.
Definition uint32 (z : Z) : Z := z mod 2 ^ 32.
Definition int64 (z : Z) : Z := (z + 2 ^ 63) mod 2 ^ 64 - 2 ^ 63.

(** [len(s)] of a slice. *)
Definition len {A : Type} (s : list A) : Z := Z.of_nat (length s).

(** The error values the two components can return.  [EOF] is the
    sentinel [io.EOF]; [SyscallError] stands for the [*PathError] that
    wraps the errno of a failed system call. *)
Inductive error : Type :=
| EOF
| ErrShortWrite
| ErrClosed
| ErrNegativeOffset
| SyscallError (errno : nat).

Definition EINVAL : error := SyscallError 22.
Definition EBADF : error := SyscallError 9.

(** An error that comes from the operating system rather than from the
    bounds checks of the components themselves. *)
Definition is_io_failure (e : error) : bool :=
  match e with
  | EOF => false
  | _ => true
  end.

(** What a call yields: its values, an error, or a run-time panic
    (slice bounds out of range, [make] with a length that is no [int]). *)
Inductive result (A : Type) : Type :=
| Ok (a : A)
| Err (e : error)
| Panic.
Arguments Ok {A} a.
Arguments Err {A} e.
Arguments Panic {A}.

(** [s[lo:hi]]: the bounds are checked against the length of the slice
    (its capacity, for the slices used here). *)
Definition slice (s : list byte) (lo hi : Z) : option (list byte) :=
  if (0 <=? lo) && (lo <=? hi) && (hi <=? len s)
  then Some (take (Z.to_nat (hi - lo)) (drop (Z.to_nat lo) s))
  else None.

(** Storing [bs] through the slice [s[lo:lo+len bs]], which shares the
    memory of [s]. *)
Definition store_at (s : list byte) (lo : Z) (bs : list byte) : list byte :=
  take (Z.to_nat lo) s ++ bs ++ drop (Z.to_nat lo + length bs) s.

End Go.

(** ** encoding/binary, big endian *)

Module Binary.

Definition byte_of_Z (z : Z) : byte :=
  match Byte.of_N (Z.to_N (z mod 256)) with
  | Some b => b
  | None => x00
  end.

Definition Z_of_byte (b : byte) : Z := Z.of_N (Byte.to_N b).

Definition at_ (b : list byte) (i : nat) : Z := Z_of_byte (nth i b x00).

(** [enc.PutUint32(b, v)]: the four bytes stored through [b]. *)
Definition PutUint32 (v : Z) : list byte :=
  [ byte_of_Z (Z.shiftr v 24); byte_of_Z (Z.shiftr v 16);
    byte_of_Z (Z.shiftr v 8); byte_of_Z v ].

(** [enc.PutUint64(b, v)]. *)
Definition PutUint64 (v : Z) : list byte :=
  [ byte_of_Z (Z.shiftr v 56); byte_of_Z (Z.shiftr v 48);
    byte_of_Z (Z.shiftr v 40); byte_of_Z (Z.shiftr v 32);
    byte_of_Z (Z.shiftr v 24); byte_of_Z (Z.shiftr v 16);
    byte_of_Z (Z.shiftr v 8); byte_of_Z v ].

(** [enc.Uint32(b)]. *)
Definition Uint32 (b : list byte) : Z :=
  Z.lor (at_ b 3)
    (Z.lor (Z.shiftl (at_ b 2) 8)
       (Z.lor (Z.shiftl (at_ b 1) 16) (Z.shiftl (at_ b 0) 24))).

(** [enc.Uint64(b)]. *)
Definition Uint64 (b : list byte) : Z :=
  Z.lor (at_ b 7)
    (Z.lor (Z.shiftl (at_ b 6) 8)
       (Z.lor (Z.shiftl (at_ b 5) 16)
          (Z.lor (Z.shiftl (at_ b 4) 24)
             (Z.lor (Z.shiftl (at_ b 3) 32)
                (Z.lor (Z.shiftl (at_ b 2) 40)
                   (Z.lor (Z.shiftl (at_ b 1) 48) (Z.shiftl (at_ b 0) 56))))))).

End Binary.

(** ** The operating system: one file *)

Module OS.
Import Go.

(** How the next system call on the file ends: it completes, or it fails
    with an errno after having transferred [n] bytes. *)
Inductive outcome : Type :=
| Done
| Fault (n : nat) (errno : nat).

(** [*os.File]: the path, the bytes on disk, whether the descriptor is
    open, and the outcomes of the system calls to come (every call
    completes once the script is used up).  A write through the descriptor
    lands at the end of the file: the store's file is append-only. *)
Record File : Type := mkFile {
  name : string;
  data : list byte;
  opened : bool;
  plan : list outcome
}.

Definition with_data (f : File) (d : list byte) : File :=
  {| name := name f; data := d; opened := opened f; plan := plan f |}.

(** One system call: take the next outcome off the script. *)
Definition syscall (f : File) : outcome * File :=
  match plan f with
  | [] => (Done, f)
  | o :: rest =>
      (o, {| name := name f; data := data f; opened := opened f; plan := rest |})
  end.

(** [os.Stat(f.Name())], reduced to the size it reports. *)
Definition Stat (f : File) : File * result Z :=
  let '(o, f1) := syscall f in
  match o with
  | Done => (f1, Ok (len (data f1)))
  | Fault _ errno => (f1, Err (SyscallError errno))
  end.

(** [os.Truncate(f.Name(), size)]: the file is cut or extended with zero
    bytes to [size]; a negative size is refused. *)
Definition Truncate (f : File) (size : Z) : File * result unit :=
  let '(o, f1) := syscall f in
  match o with
  | Done =>
      if size <? 0 then (f1, Err EINVAL)
      else (with_data f1 (resize (Z.to_nat size) x00 (data f1)), Ok tt)
  | Fault _ errno => (f1, Err (SyscallError errno))
  end.

(** [f.Truncate(size)], on the descriptor. *)
Definition File_Truncate (f : File) (size : Z) : File * result unit :=
  if opened f then Truncate f size else (f, Err ErrClosed).

(** [f.Sync()]. *)
Definition File_Sync (f : File) : File * result unit :=
  if opened f then
    let '(o, f1) := syscall f in
    match o with
    | Done => (f1, Ok tt)
    | Fault _ errno => (f1, Err (SyscallError errno))
    end
  else (f, Err ErrClosed).

(** [f.Close()]: the descriptor is released whatever the call reports. *)
Definition File_Close (f : File) : File * result unit :=
  if opened f then
    let '(o, f1) := syscall f in
    let f2 := {| name := name f1; data := data f1; opened := false; plan := plan f1 |} in
    match o with
    | Done => (f2, Ok tt)
    | Fault _ errno => (f2, Err (SyscallError errno))
    end
  else (f, Err ErrClosed).

(** [os.OpenFile(f.Name(), os.O_RDWR, 0600)]: a new descriptor on the
    same path. *)
Definition OpenFile (f : File) : File :=
  {| name := name f; data := data f; opened := true; plan := plan f |}.

(** [f.Write(b)]: all of [b] is appended, or a failing call appends a
    prefix of it and reports its errno.  Returns the count and the
    error. *)
Definition File_Write (f : File) (b : list byte) : File * Z * option error :=
  if opened f then
    let '(o, f1) := syscall f in
    match o with
    | Done => (with_data f1 (data f1 ++ b), len b, None)
    | Fault n errno =>
        let written := take n b in
        (with_data f1 (data f1 ++ written), len written, Some (SyscallError errno))
    end
  else (f, 0, Some ErrClosed).

(** [f.ReadAt(b, off)] with [n = len(b)]: the bytes read and the error.
    Nothing is read for an empty [b]; a short read ends in [io.EOF]. *)
Definition File_ReadAt (f : File) (n : Z) (off : Z) : File * list byte * option error :=
  if opened f then
    if off <? 0 then (f, [], Some ErrNegativeOffset)
    else if n <=? 0 then (f, [], None)
    else
      let '(o, f1) := syscall f in
      let avail := take (Z.to_nat n) (drop (Z.to_nat off) (data f1)) in
      match o with
      | Done =>
          if len avail <? n then (f1, avail, Some EOF) else (f1, avail, None)
      | Fault k errno => (f1, take k avail, Some (SyscallError errno))
      end
  else (f, [], Some ErrClosed).

(** No system call on the file is going to fail. *)
Definition quiet (f : File) : Prop := Forall (fun o => o = Done) (plan f).

End OS.

(** ** bufio.Writer *)

Module Bufio.
Import Go.

(** [bufio.NewWriter] allocates a buffer of this many bytes. *)
Definition defaultBufSize : Z := 4096.

(** [buf] holds the buffered bytes [b.buf[0:b.n]]; [err] is the sticky
    error of the writer.  The underlying writer [b.wr] is the store's
    file, which the store holds as well: it is passed in and out. *)
Record Writer : Type := mkWriter {
  buf : list byte;
  err : option error
}.

Definition NewWriter : Writer := {| buf := []; err := None |}.

Definition Buffered (b : Writer) : Z := len (buf b).
Definition Available (b : Writer) : Z := defaultBufSize - len (buf b).

Definition is_nil (e : option error) : bool :=
  match e with
  | None => true
  | Some _ => false
  end.

(** [b.Flush()]. *)
Definition Flush (f : OS.File) (b : Writer) : OS.File * Writer * option error :=
  match err b with
  | Some e => (f, b, Some e)
  | None =>
      if Buffered b =? 0 then (f, b, None)
      else
        let '(f1, n, e) := OS.File_Write f (buf b) in
        let e := if (n <? Buffered b) && is_nil e then Some ErrShortWrite else e in
        match e with
        | Some e' =>
            (f1, {| buf := drop (Z.to_nat n) (buf b); err := Some e' |}, Some e')
        | None => (f1, {| buf := []; err := None |}, None)
        end
  end.

(** [copy(b.buf[b.n:], p)]: the bytes that fit. *)
Definition copy (b : Writer) (p : list byte) : list byte :=
  take (Z.to_nat (Available b)) p.

(** The condition of the loop of [b.Write]:
    [len(p) > b.Available() && b.err == nil]. *)
Definition more (b : Writer) (p : list byte) : bool :=
  (Available b <? len p) && is_nil (err b).

(** The loop of [b.Write].  [fuel] bounds the number of rounds; two are
    always enough ([write_loop_fuel] below). *)
Fixpoint write_loop (fuel : nat) (f : OS.File) (b : Writer) (p : list byte) (nn : Z)
  : OS.File * Writer * list byte * Z :=
  match fuel with
  | O => (f, b, p, nn)
  | S fuel' =>
      if more b p then
        if Buffered b =? 0 then
          (* large write, empty buffer: write directly from p *)
          let '(f1, n, e) := OS.File_Write f p in
          write_loop fuel' f1 {| buf := buf b; err := e |}
            (drop (Z.to_nat n) p) (nn + n)
        else
          let c := copy b p in
          let '(f1, b1, _) := Flush f {| buf := buf b ++ c; err := err b |} in
          write_loop fuel' f1 b1 (drop (length c) p) (nn + len c)
      else (f, b, p, nn)
  end.

(** [b.Write(p)]: the count and the error. *)
Definition Write (f : OS.File) (b : Writer) (p : list byte)
  : OS.File * Writer * Z * option error :=
  let '(f1, b1, p1, nn) := write_loop 2 f b p 0 in
  match err b1 with
  | Some e => (f1, b1, nn, Some e)
  | None =>
      let c := copy b1 p1 in
      (f1, {| buf := buf b1 ++ c; err := err b1 |}, nn + len c, None)
  end.

End Bufio.

(** ** The store *)

Module Store.
Import Go.

(** The number of bytes used to store the record's length. *)
Definition lenWidth : Z := 8.

(** The mutex is left out: calls are modelled one at a time. *)
Record store : Type := mkStore {
  File : OS.File;
  buf : Bufio.Writer;
  size : Z
}.

Definition newStore (f : OS.File) : OS.File * result store :=
  let '(f1, r) := OS.Stat f in
  match r with
  | Ok sz =>
      (f1, Ok {| File := f1; size := uint64 sz; buf := Bufio.NewWriter |})
  | Err e => (f1, Err e)
  | Panic => (f1, Panic)
  end.

(** [binary.Write(w, enc, v)] for a [uint64]: its eight bytes, in one
    [Write]. *)
Definition binary_Write (f : OS.File) (w : Bufio.Writer) (v : Z)
  : OS.File * Bufio.Writer * option error :=
  let '(f1, w1, _, e) := Bufio.Write f w (Binary.PutUint64 v) in
  (f1, w1, e).

Definition Append (s : store) (p : list byte) : store * result (Z * Z) :=
  let pos := size s in
  let '(f1, b1, e) := binary_Write (File s) (buf s) (uint64 (len p)) in
  match e with
  | Some e => ({| File := f1; buf := b1; size := size s |}, Err e)
  | None =>
      let '(f2, b2, w, e) := Bufio.Write f1 b1 p in
      match e with
      | Some e => ({| File := f2; buf := b2; size := size s |}, Err e)
      | None =>
          let w := w + lenWidth in
          ({| File := f2; buf := b2; size := uint64 (size s + uint64 w) |},
           Ok (uint64 w, pos))
      end
  end.

(** [make([]byte, n)] panics when [n] is no [int]. *)
Definition make_ok (n : Z) : bool := n <? 2 ^ 63.

Definition Read (s : store) (pos : Z) : store * result (list byte) :=
  let '(f1, b1, e) := Bufio.Flush (File s) (buf s) in
  match e with
  | Some e => ({| File := f1; buf := b1; size := size s |}, Err e)
  | None =>
      let '(f2, sizeb, e) := OS.File_ReadAt f1 lenWidth (int64 pos) in
      match e with
      | Some e => ({| File := f2; buf := b1; size := size s |}, Err e)
      | None =>
          let n := Binary.Uint64 sizeb in
          if make_ok n then
            let '(f3, b, e) := OS.File_ReadAt f2 n (int64 (uint64 (pos + lenWidth))) in
            match e with
            | Some e => ({| File := f3; buf := b1; size := size s |}, Err e)
            | None => ({| File := f3; buf := b1; size := size s |}, Ok b)
            end
          else ({| File := f2; buf := b1; size := size s |}, Panic)
      end
  end.

(** [s.ReadAt(p, off)] with [n = len(p)]: the bytes read into [p] and the
    error. *)
Definition ReadAt (s : store) (n : Z) (off : Z) : store * list byte * option error :=
  let '(f1, b1, e) := Bufio.Flush (File s) (buf s) in
  match e with
  | Some e => ({| File := f1; buf := b1; size := size s |}, [], Some e)
  | None =>
      let '(f2, b, e) := OS.File_ReadAt f1 n off in
      ({| File := f2; buf := b1; size := size s |}, b, e)
  end.

Definition Close (s : store) : store * result unit :=
  let '(f1, b1, e) := Bufio.Flush (File s) (buf s) in
  match e with
  | Some e => ({| File := f1; buf := b1; size := size s |}, Err e)
  | None =>
      let '(f2, r) := OS.File_Close f1 in
      ({| File := f2; buf := b1; size := size s |}, r)
  end.

(** The invariant of the store: its file is open, the buffer is within
    its capacity and, as long as the writer has met no error, [size] is
    the length of the file plus the number of buffered bytes. *)
Definition store_ok (s : store) : Prop :=
  OS.opened (File s) = true
  /\ len (Bufio.buf (buf s)) <= Bufio.defaultBufSize
  /\ (Bufio.err (buf s) = None ->
      size s = len (OS.data (File s)) + len (Bufio.buf (buf s))).


(** The frame of a record: its length in eight bytes, then the record. *)
Definition frame (p : list byte) : list byte :=
  Binary.PutUint64 (uint64 (len p)) ++ p.


End Store.

(** ** gommap: a shared, read/write mapping of a whole file *)

Module Gommap.
Import Go.

(** [gommap.Map(f.Fd(), PROT_READ|PROT_WRITE, MAP_SHARED)]: the mapping
    has the length the file has now and starts out with its bytes.  An
    empty file cannot be mapped. *)
Definition Map (f : OS.File) : OS.File * result (list byte) :=
  if OS.opened f then
    let '(o, f1) := OS.syscall f in
    match o with
    | OS.Done =>
        if len (OS.data f1) =? 0 then (f1, Err EINVAL)
        else (f1, Ok (OS.data f1))
    | OS.Fault _ errno => (f1, Err (SyscallError errno))
    end
  else (f, Err EBADF).

(** [m.Sync(MS_SYNC)]: the stores made through the mapping have reached
    the file when the call returns (no byte is written past the end of
    the file). *)
Definition Sync (f : OS.File) (m : list byte) : OS.File * result unit :=
  let '(o, f1) := OS.syscall f in
  match o with
  | OS.Done =>
      (OS.with_data f1
         (take (length (OS.data f1)) m ++ drop (length m) (OS.data f1)),
       Ok tt)
  | OS.Fault _ errno => (f1, Err (SyscallError errno))
  end.

End Gommap.

(** ** The index ([internal/log/index.go]) *)

Module Index.
Import Go.

Definition offWidth : Z := 4.
Definition posWidth : Z := 8.
Definition totWidth : Z := offWidth + posWidth.

(** Modelled from the spec: the type [Config] is declared outside the
    files at hand; the index uses its [Segment.MaxIndexBytes] only, the
    configured maximum capacity of the index in bytes, a [uint64]. *)
Record SegmentConfig : Type := mkSegment { MaxIndexBytes : Z }.
Record Config : Type := mkConfig { Segment : SegmentConfig }.

Record index : Type := mkIndex {
  file : OS.File;
  mmap : list byte;
  size : Z
}.

Definition newIndex (f : OS.File) (c : Config) : OS.File * result index :=
  let '(f1, r) := OS.Stat f in
  match r with
  | Ok sz =>
      let size := uint64 sz in
      let '(f2, r) := OS.Truncate f1 (int64 (MaxIndexBytes (Segment c))) in
      match r with
      | Ok _ =>
          let '(f3, r) := Gommap.Map f2 in
          match r with
          | Ok m => (f3, Ok {| file := f3; mmap := m; size := size |})
          | Err e => (f3, Err e)
          | Panic => (f3, Panic)
          end
      | Err e => (f2, Err e)
      | Panic => (f2, Panic)
      end
  | Err e => (f1, Err e)
  | Panic => (f1, Panic)
  end.

Definition Close (i : index) : index * result unit :=
  let '(f1, r) := Gommap.Sync (file i) (mmap i) in
  match r with
  | Ok _ =>
      let '(f2, r) := OS.File_Sync f1 in
      match r with
      | Ok _ =>
          let '(f3, r) := OS.File_Truncate f2 (int64 (size i)) in
          match r with
          | Ok _ =>
              let '(f4, r) := OS.File_Close f3 in
              ({| file := f4; mmap := mmap i; size := size i |}, r)
          | _ =>
              (* [if err != nil { return nil }] *)
              ({| file := f3; mmap := mmap i; size := size i |}, Ok tt)
          end
      | _ => ({| file := f2; mmap := mmap i; size := size i |}, r)
      end
  | _ => ({| file := f1; mmap := mmap i; size := size i |}, r)
  end.

Definition Read (i : index) (in_ : Z) : result (Z * Z) :=
  if size i =? 0 then Err EOF
  else
    let out :=
      if in_ =? -1 then uint32 (uint64 (size i / totWidth - 1))
      else uint32 in_ in
    let pos := uint64 (out * totWidth) in
    if size i <? uint64 (pos + totWidth) then Err EOF
    else
      match slice (mmap i) pos (uint64 (pos + offWidth)),
            slice (mmap i) (uint64 (pos + offWidth)) (uint64 (pos + totWidth)) with
      | Some b1, Some b2 => Ok (Binary.Uint32 b1, Binary.Uint64 b2)
      | _, _ => Panic
      end.

Definition Write (i : index) (off pos : Z) : index * result unit :=
  if len (mmap i) <? uint64 (size i + totWidth) then (i, Err EOF)
  else
    match slice (mmap i) (size i) (uint64 (size i + offWidth)) with
    | Some _ =>
        let m1 := store_at (mmap i) (size i) (Binary.PutUint32 off) in
        match slice m1 (uint64 (size i + offWidth)) (uint64 (size i + totWidth)) with
        | Some _ =>
            let m2 := store_at m1 (uint64 (size i + offWidth)) (Binary.PutUint64 pos) in
            ({| file := file i; mmap := m2; size := uint64 (size i + uint64 totWidth) |},
             Ok tt)
        | None => ({| file := file i; mmap := m1; size := size i |}, Panic)
        end
    | None => (i, Panic)
    end.

Definition Name (i : index) : string := OS.name (file i).

(** The calls a client can make on an index, and a run of them.  [Read]
    and [Name] leave the index as it is; so does a [Write] that fails. *)
Inductive call : Type :=
| CallWrite (off pos : Z)
| CallRead (in_ : Z)
| CallName
| CallClose.

Definition step (i : index) (c : call) : index :=
  match c with
  | CallWrite off pos => fst (Write i off pos)
  | CallRead in_ => let _ := Read i in_ in i
  | CallName => let _ := Name i in i
  | CallClose => fst (Close i)
  end.

Definition run (i : index) (cs : list call) : index := fold_left step cs i.

(** The twelve bytes of an entry, and of a sequence of entries. *)
Definition encode (e : Z * Z) : list byte :=
  Binary.PutUint32 (fst e) ++ Binary.PutUint64 (snd e).

Definition encode_all (es : list (Z * Z)) : list byte := flat_map encode es.

(** The positions [ps] under the relative offsets [k], [k+1], ... *)
Fixpoint numbered (k : Z) (ps : list Z) : list (Z * Z) :=
  match ps with
  | [] => []
  | p :: rest => (k, p) :: numbered (k + 1) rest
  end.

(** The invariant of the index: [size] counts whole entries and stays
    within the mapped region. *)
Definition index_ok (i : index) : Prop :=
  size i mod totWidth = 0 /\ 0 <= size i <= len (mmap i).

(** Writing the entries [es] one after the other, stopping at the first
    write that does not succeed. *)
Fixpoint write_all (i : index) (es : list (Z * Z)) : index * result unit :=
  match es with
  | [] => (i, Ok tt)
  | (off, pos) :: rest =>
      match Write i off pos with
      | (i1, Ok _) => write_all i1 rest
      | (i1, r) => (i1, r)
      end
  end.

End Index.

(** ** The in-memory log of package [server] *)

Module Server.
Import Go.

Record Record_ : Type := mkRecord {
  Value : list byte;
  Offset : Z
}.

(** The mutex is left out: calls are modelled one at a time. *)
Record Log : Type := mkLog {
  records : list Record_
}.

(** [ErrOffsetNotFound], the one error of the package. *)
Inductive error : Type :=
| ErrOffsetNotFound.

Definition NewLog : Log := {| records := [] |}.

Definition Append (c : Log) (record : Record_) : Log * (Z * option error) :=
  let record := {| Value := Value record; Offset := uint64 (len (records c)) |} in
  ({| records := records c ++ [record] |}, (Offset record, None)).

(** [None] stands for the panic of an index out of range in
    [c.records[offset]]. *)
Definition Read (c : Log) (offset : Z) : option (Record_ * option error) :=
  if uint64 (len (records c)) <=? offset then
    Some ({| Value := []; Offset := 0 |}, Some ErrOffsetNotFound)
  else
    match records c !! Z.to_nat offset with
    | Some r => Some (r, None)
    | None => None
    end.

(** Appending the values [vs] in order, each in a record whose [Offset]
    field the caller has set to [junk]. *)
Definition append_values (c : Log) (junk : Z) (vs : list (list byte)) : Log :=
  fold_left (fun c v => fst (Append c {| Value := v; Offset := junk |})) vs c.

End Server.

(** ** Concrete files, indexes and stores used in the examples *)

Module Examples.
Import Go.

(** A new, empty file on which every system call completes. *)
Definition empty_file (name : string) : OS.File :=
  {| OS.name := name; OS.data := []; OS.opened := true; OS.plan := [] |}.

Definition config (maxBytes : Z) : Index.Config :=
  {| Index.Segment := {| Index.MaxIndexBytes := maxBytes |} |}.

(** The index of the test: opened on an empty file with
    [MaxIndexBytes = 1024]. *)
Definition opened_index (f : OS.File) (c : Index.Config) : Index.index :=
  match Index.newIndex f c with
  | (_, Ok i) => i
  | (f1, _) => {| Index.file := f1; Index.mmap := []; Index.size := 0 |}
  end.

Definition fresh_index : Index.index :=
  opened_index (empty_file "index_test") (config 1024).

(** ... after the two writes of the test. *)
Definition two_entries : Index.index :=
  fst (Index.write_all fresh_index [(0, 0); (1, 10)]).

(** The same index on a file whose third system call from now on, the
    truncation in [Close], fails with [EIO]. *)
Definition two_entries_bad_truncate : Index.index :=
  {| Index.file :=
       {| OS.name := "index_test"; OS.data := OS.data (Index.file two_entries);
          OS.opened := true; OS.plan := [OS.Done; OS.Done; OS.Fault 0 5] |};
     Index.mmap := Index.mmap two_entries;
     Index.size := Index.size two_entries |}.

(** A store opened on an empty file. *)
Definition opened_store (f : OS.File) : Store.store :=
  match Store.newStore f with
  | (_, Ok s) => s
  | (f1, _) => {| Store.File := f1; Store.buf := Bufio.NewWriter; Store.size := 0 |}
  end.

Definition fresh_store : Store.store := opened_store (empty_file "store_test").

Definition hello_world : list byte := list_byte_of_string "hello world".
Definition foo : list byte := list_byte_of_string "foo".

(** A store on a disk that is full: the first write to the file fails
    with [ENOSPC] after 100 bytes. *)
Definition full_disk_store : Store.store :=
  {| Store.File :=
       {| OS.name := "store_test"; OS.data := []; OS.opened := true;
          OS.plan := [OS.Fault 100 28] |};
     Store.buf := Bufio.NewWriter;
     Store.size := 0 |}.

(** A record that does not fit into the buffer of the writer. *)
Definition big_record : list byte := repeat x00 5000.

(** An index with room for one entry, after one write. *)
Definition full_index : Index.index :=
  fst (Index.write_all (opened_index (empty_file "index_test") (config 12)) [(0, 0)]).

(** An index file left by an earlier run: the two entries of the test,
    without padding. *)
Definition entries_file : OS.File :=
  {| OS.name := "index_test"; OS.data := Index.encode_all [(0, 0); (1, 10)];
     OS.opened := true; OS.plan := [] |}.

(** The index of the test on a file whose next system call fails with
    [EIO]. *)
Definition two_entries_bad_sync : Index.index :=
  {| Index.file :=
       {| OS.name := "index_test"; OS.data := OS.data (Index.file two_entries);
          OS.opened := true; OS.plan := [OS.Fault 0 5] |};
     Index.mmap := Index.mmap two_entries;
     Index.size := Index.size two_entries |}.


End Examples.

(** * Properties *)

Import Go.

(** Linear arithmetic with division and remainder by constants. *)
Ltac zdm := Z.to_euclidean_division_equations; lia.

(** ** Big-endian encoding and decoding *)

Section Encoding.
Import Binary.

Lemma Z_of_byte_range (b : byte) : 0 <= Z_of_byte b < 256.
Proof.
  unfold Z_of_byte. pose proof (Byte.to_N_bounded b) as H.
  lia.
Qed.

Lemma Z_of_byte_of_Z (z : Z) : Z_of_byte (byte_of_Z z) = z mod 256.
Proof.
  unfold Z_of_byte, byte_of_Z.
  assert (Hr : 0 <= z mod 256 < 256) by (apply Z.mod_pos_bound; lia).
  destruct (Byte.of_N (Z.to_N (z mod 256))) as [b|] eqn:E.
  - apply Byte.to_of_N in E. rewrite E. lia.
  - apply Byte.of_N_None_iff in E. lia.
Qed.

(** Or-ing a value below [2^n] with one shifted left by [n] adds them. *)
Lemma lor_shiftl_add (lo hi n : Z) :
  0 <= n -> 0 <= lo < 2 ^ n -> Z.lor lo (Z.shiftl hi n) = lo + hi * 2 ^ n.
Proof.
  intros Hn Hlo.
  rewrite <- Z.shiftl_mul_pow2 by lia.
  rewrite <- Z.lxor_lor, <- Z.add_nocarry_lxor; auto.
  all: apply Z.bits_inj'; intros i Hi; rewrite Z.land_spec, Z.bits_0.
  all: destruct (Z.lt_ge_cases i n).
  all: try (rewrite Z.shiftl_spec_low by lia; apply andb_false_r).
  all: rewrite <- (Z.mod_small lo (2 ^ n)) by lia.
  all: rewrite Z.mod_pow2_bits_high by lia; reflexivity.
Qed.

Lemma lor_disjoint (lo y n : Z) :
  0 <= n -> 0 <= lo < 2 ^ n -> y mod 2 ^ n = 0 -> Z.lor lo y = lo + y.
Proof.
  intros Hn Hlo Hy.
  assert (E : y = (y / 2 ^ n) * 2 ^ n).
  { pose proof (Z.div_mod y (2 ^ n)). lia. }
  rewrite E at 1. rewrite <- Z.shiftl_mul_pow2 by lia.
  rewrite lor_shiftl_add by lia. lia.
Qed.

Lemma Uint32_eq (b0 b1 b2 b3 : byte) (l : list byte) :
  Uint32 (b0 :: b1 :: b2 :: b3 :: l) =
  Z_of_byte b3 + Z_of_byte b2 * 2 ^ 8 + Z_of_byte b1 * 2 ^ 16 + Z_of_byte b0 * 2 ^ 24.
Proof.
  unfold Uint32, at_; cbn [nth].
  pose proof (Z_of_byte_range b0). pose proof (Z_of_byte_range b1).
  pose proof (Z_of_byte_range b2). pose proof (Z_of_byte_range b3).
  rewrite !Z.shiftl_mul_pow2 by lia.
  rewrite (lor_disjoint (_ * 2 ^ 16) (_ * 2 ^ 24) 24) by (first [lia | zdm]).
  rewrite (lor_disjoint (_ * 2 ^ 8) _ 16) by (first [lia | zdm]).
  rewrite (lor_disjoint _ _ 8) by (first [lia | zdm]).
  lia.
Qed.

Lemma Uint64_eq (b0 b1 b2 b3 b4 b5 b6 b7 : byte) (l : list byte) :
  Uint64 (b0 :: b1 :: b2 :: b3 :: b4 :: b5 :: b6 :: b7 :: l) =
  Z_of_byte b7 + Z_of_byte b6 * 2 ^ 8 + Z_of_byte b5 * 2 ^ 16 + Z_of_byte b4 * 2 ^ 24
  + Z_of_byte b3 * 2 ^ 32 + Z_of_byte b2 * 2 ^ 40 + Z_of_byte b1 * 2 ^ 48
  + Z_of_byte b0 * 2 ^ 56.
Proof.
  unfold Uint64, at_; cbn [nth].
  pose proof (Z_of_byte_range b0). pose proof (Z_of_byte_range b1).
  pose proof (Z_of_byte_range b2). pose proof (Z_of_byte_range b3).
  pose proof (Z_of_byte_range b4). pose proof (Z_of_byte_range b5).
  pose proof (Z_of_byte_range b6). pose proof (Z_of_byte_range b7).
  rewrite !Z.shiftl_mul_pow2 by lia.
  rewrite (lor_disjoint (_ * 2 ^ 48) (_ * 2 ^ 56) 56) by (first [lia | zdm]).
  rewrite (lor_disjoint (_ * 2 ^ 40) _ 48) by (first [lia | zdm]).
  rewrite (lor_disjoint (_ * 2 ^ 32) _ 40) by (first [lia | zdm]).
  rewrite (lor_disjoint (_ * 2 ^ 24) _ 32) by (first [lia | zdm]).
  rewrite (lor_disjoint (_ * 2 ^ 16) _ 24) by (first [lia | zdm]).
  rewrite (lor_disjoint (_ * 2 ^ 8) _ 16) by (first [lia | zdm]).
  rewrite (lor_disjoint _ _ 8) by (first [lia | zdm]).
  lia.
Qed.

(** Decoding what was encoded gives the value back, reduced to the width
    of the field; what follows the field is not looked at. *)
Lemma Uint32_PutUint32 (v : Z) (l : list byte) :
  Uint32 (PutUint32 v ++ l) = v mod 2 ^ 32.
Proof.
  unfold PutUint32. cbn [app]. rewrite Uint32_eq, !Z_of_byte_of_Z.
  rewrite !Z.shiftr_div_pow2 by lia. zdm.
Qed.

Lemma Uint64_PutUint64 (v : Z) (l : list byte) :
  Uint64 (PutUint64 v ++ l) = v mod 2 ^ 64.
Proof.
  unfold PutUint64. cbn [app]. rewrite Uint64_eq, !Z_of_byte_of_Z.
  rewrite !Z.shiftr_div_pow2 by lia. zdm.
Qed.

Lemma Uint32_take (l : list byte) (n : nat) :
  (4 <= n)%nat -> Uint32 (take n l) = Uint32 l.
Proof.
  intros H. unfold Uint32, at_.
  do 4 (destruct n as [|n]; [lia|]).
  destruct l as [|b0 [|b1 [|b2 [|b3 l]]]]; reflexivity.
Qed.

Lemma Uint64_take (l : list byte) (n : nat) :
  (8 <= n)%nat -> Uint64 (take n l) = Uint64 l.
Proof.
  intros H. unfold Uint64, at_.
  do 8 (destruct n as [|n]; [lia|]).
  destruct l as [|b0 [|b1 [|b2 [|b3 [|b4 [|b5 [|b6 [|b7 l]]]]]]]]; reflexivity.
Qed.

End Encoding.

(** ** Slices *)

Section Slices.

Lemma slice_Some (s : list byte) (lo hi : Z) :
  0 <= lo <= hi -> hi <= len s ->
  slice s lo hi = Some (take (Z.to_nat (hi - lo)) (drop (Z.to_nat lo) s)).
Proof.
  intros H1 H2. unfold slice.
  destruct (0 <=? lo) eqn:E1; [|lia].
  destruct (lo <=? hi) eqn:E2; [|lia].
  destruct (hi <=? len s) eqn:E3; [|lia].
  reflexivity.
Qed.

Lemma store_at_length (s : list byte) (lo : Z) (bs : list byte) :
  0 <= lo -> lo + len bs <= len s -> length (store_at s lo bs) = length s.
Proof.
  unfold store_at, len. intros H1 H2.
  rewrite !length_app, length_take, length_drop. lia.
Qed.

(** Two stores one behind the other are one store of both. *)
Lemma store_at_twice (s : list byte) (lo : Z) (b1 b2 : list byte) :
  0 <= lo -> lo + len b1 + len b2 <= len s ->
  store_at (store_at s lo b1) (lo + len b1) b2
  = take (Z.to_nat lo) s ++ (b1 ++ b2) ++ drop (Z.to_nat (lo + len b1 + len b2)) s.
Proof.
  unfold store_at, len. intros H1 H2.
  replace (Z.to_nat (lo + Z.of_nat (length b1)))
    with (length (take (Z.to_nat lo) s ++ b1))%nat
    by (rewrite length_app, length_take; lia).
  rewrite (app_assoc (take _ s) b1).
  rewrite take_app_length.
  rewrite drop_app_add.
  rewrite drop_drop.
  rewrite <- !app_assoc. do 3 f_equal. f_equal.
  lia.
Qed.

End Slices.

(** ** The index: what [Write] and [Read] compute *)

Section IndexFacts.
Import Index.

Lemma uint64_small (z : Z) : 0 <= z < 2 ^ 64 -> uint64 z = z.
Proof. intros H. unfold uint64. now apply Z.mod_small. Qed.

Lemma uint32_small (z : Z) : 0 <= z < 2 ^ 32 -> uint32 z = z.
Proof. intros H. unfold uint32. now apply Z.mod_small. Qed.

Lemma uint32_range (z : Z) : 0 <= uint32 z < 2 ^ 32.
Proof. unfold uint32. apply Z.mod_pos_bound. lia. Qed.

Lemma int64_small (z : Z) : 0 <= z < 2 ^ 63 -> int64 z = z.
Proof. intros H. unfold int64. rewrite Z.mod_small; lia. Qed.

Lemma totWidth_eq : totWidth = 12.
Proof. reflexivity. Qed.

Lemma offWidth_eq : offWidth = 4.
Proof. reflexivity. Qed.

Lemma encode_length (e : Z * Z) : length (encode e) = 12%nat.
Proof. reflexivity. Qed.

Lemma encode_all_length (es : list (Z * Z)) :
  length (encode_all es) = (12 * length es)%nat.
Proof.
  induction es as [|e es IH]; [reflexivity|].
  unfold encode_all in *. cbn [flat_map]. rewrite length_app, IH, encode_length.
  cbn [length]. lia.
Qed.

(** With room for one more entry, [Write] stores the twelve bytes of the
    entry at [size] and moves [size] on by twelve. *)
Lemma Write_room (i : index) (off pos : Z) :
  0 <= size i -> size i + 12 < 2 ^ 64 -> size i + 12 <= len (mmap i) ->
  Write i off pos =
  ({| file := file i;
      mmap := take (Z.to_nat (size i)) (mmap i) ++ encode (off, pos)
              ++ drop (Z.to_nat (size i + 12)) (mmap i);
      size := size i + 12 |}, Ok tt).
Proof.
  intros H0 H1 H2. unfold Write.
  rewrite totWidth_eq, offWidth_eq.
  change (uint64 12) with 12.
  rewrite (uint64_small (size i + 12)), (uint64_small (size i + 4)) by lia.
  destruct (len (mmap i) <? size i + 12) eqn:E; [lia|].
  rewrite slice_Some by lia.
  rewrite slice_Some.
  2: lia.
  2: { unfold len in *. rewrite store_at_length; unfold len; cbn [length Binary.PutUint32]; lia. }
  f_equal. f_equal.
  replace (size i + 4) with (size i + len (Binary.PutUint32 off)) by reflexivity.
  rewrite store_at_twice.
  - unfold encode. cbn [fst snd]. do 3 f_equal.
    unfold len. cbn [length Binary.PutUint32 Binary.PutUint64]. lia.
  - lia.
  - unfold len in *. cbn [length Binary.PutUint32 Binary.PutUint64]. lia.
Qed.

(** Without room, [Write] reports [io.EOF] and changes nothing. *)
Lemma Write_full (i : index) (off pos : Z) :
  0 <= size i -> size i + 12 < 2 ^ 64 -> len (mmap i) < size i + 12 ->
  Write i off pos = (i, Err EOF).
Proof.
  intros H0 H1 H2. unfold Write.
  rewrite totWidth_eq, uint64_small by lia.
  destruct (len (mmap i) <? size i + 12) eqn:E; [reflexivity|lia].
Qed.

(** The entry number [Read] looks up for the argument [in_]. *)
Lemma Read_present (i : index) (in_ k : Z) :
  k = (if in_ =? -1 then uint32 (uint64 (size i / totWidth - 1)) else uint32 in_) ->
  12 * k + 12 <= size i -> size i <= len (mmap i) ->
  Read i in_ =
  Ok (Binary.Uint32 (drop (Z.to_nat (12 * k)) (mmap i)),
      Binary.Uint64 (drop (Z.to_nat (12 * k + 4)) (mmap i))).
Proof.
  intros Hk H1 H2. unfold Read. rewrite <- Hk.
  assert (Hr : 0 <= k < 2 ^ 32) by (subst k; destruct (in_ =? -1); apply uint32_range).
  rewrite totWidth_eq, offWidth_eq.
  destruct (size i =? 0) eqn:E0; [lia|].
  rewrite (uint64_small (k * 12)) by lia.
  rewrite !uint64_small by lia.
  destruct (size i <? k * 12 + 12) eqn:E1; [lia|].
  rewrite !slice_Some by lia.
  replace (k * 12 + 4 - k * 12) with 4 by lia.
  replace (k * 12 + 12 - (k * 12 + 4)) with 8 by lia.
  rewrite Uint32_take, Uint64_take by lia.
  replace (k * 12) with (12 * k) by lia. reflexivity.
Qed.

Lemma Read_absent (i : index) (in_ k : Z) :
  k = (if in_ =? -1 then uint32 (uint64 (size i / totWidth - 1)) else uint32 in_) ->
  size i < 12 * k + 12 ->
  Read i in_ = Err EOF.
Proof.
  intros Hk H1. unfold Read. rewrite <- Hk.
  assert (Hr : 0 <= k < 2 ^ 32) by (subst k; destruct (in_ =? -1); apply uint32_range).
  rewrite totWidth_eq.
  destruct (size i =? 0) eqn:E0; [reflexivity|].
  rewrite (uint64_small (k * 12)) by lia.
  rewrite !uint64_small by lia.
  destruct (size i <? k * 12 + 12) eqn:E1; [reflexivity|lia].
Qed.

End IndexFacts.

(** ** The index: sequences of writes *)

Section IndexWrites.
Import Index.

Lemma write_all_Ok (es : list (Z * Z)) :
  forall i i',
    0 <= size i <= len (mmap i) ->
    size i + 12 * len es < 2 ^ 64 ->
    write_all i es = (i', Ok tt) ->
    size i' = size i + 12 * len es
    /\ size i' <= len (mmap i)
    /\ file i' = file i
    /\ mmap i' = take (Z.to_nat (size i)) (mmap i) ++ encode_all es
                 ++ drop (Z.to_nat (size i + 12 * len es)) (mmap i).
Proof.
  induction es as [|[off pos] es IH]; intros i i' Hs Hb Hw.
  - cbn in Hw. inversion Hw; subst i'. unfold len in *.
    cbn [length encode_all flat_map app Z.of_nat].
    rewrite Z.mul_0_r, Z.add_0_r, take_drop. repeat split; lia.
  - cbn [write_all] in Hw. unfold len in Hb. cbn [length] in Hb.
    destruct (Z.lt_ge_cases (len (mmap i)) (size i + 12)) as [Hfull|Hroom].
    + rewrite Write_full in Hw by lia. discriminate.
    + rewrite Write_room in Hw by lia.
      apply IH in Hw; cbn [size mmap file] in *.
      * destruct Hw as (H1 & H2 & H3 & H4).
        assert (Hlen : length (take (Z.to_nat (size i)) (mmap i) ++ encode (off, pos)
                               ++ drop (Z.to_nat (size i + 12)) (mmap i))
                       = length (mmap i)).
        { rewrite !length_app, length_take, length_drop, encode_length.
          unfold len in *. lia. }
        unfold len in *. cbn [length]. rewrite Hlen in H2.
        repeat split; [lia | lia | assumption |].
        rewrite H4. unfold encode_all. cbn [flat_map].
        rewrite (app_assoc (take _ (mmap i)) (encode (off, pos))).
        replace (Z.to_nat (size i + 12))
          with (length (take (Z.to_nat (size i)) (mmap i) ++ encode (off, pos)))
          by (rewrite length_app, length_take, encode_length; lia).
        rewrite take_app_length.
        replace (Z.to_nat (size i + 12 + 12 * Z.of_nat (length es)))
          with (length (take (Z.to_nat (size i)) (mmap i) ++ encode (off, pos))
                + Z.to_nat (12 * Z.of_nat (length es)))%nat
          by (rewrite length_app, length_take, encode_length; lia).
        rewrite drop_app_add, drop_drop.
        rewrite length_app, length_take, encode_length.
        rewrite <- !app_assoc. do 3 f_equal. f_equal. lia.
      * unfold len in *.
        rewrite !length_app, length_take, length_drop, encode_length. lia.
      * unfold len in *. lia.
Qed.

(** As long as there is room, every write succeeds. *)
Lemma write_all_room (es : list (Z * Z)) :
  forall i,
    0 <= size i -> size i + 12 * len es <= len (mmap i) -> len (mmap i) < 2 ^ 64 ->
    exists i', write_all i es = (i', Ok tt).
Proof.
  induction es as [|[off pos] es IH]; intros i H0 H1 H2.
  - eexists. reflexivity.
  - cbn [write_all]. unfold len in H1. cbn [length] in H1.
    rewrite Write_room by (unfold len in *; lia).
    apply IH; cbn [size mmap].
    + lia.
    + unfold len in *.
      rewrite !length_app, length_take, length_drop, encode_length. lia.
    + unfold len in *.
      rewrite !length_app, length_take, length_drop, encode_length. lia.
Qed.

Lemma drop_encode_all (es : list (Z * Z)) (rest : list byte) :
  forall k : nat,
    (k <= length es)%nat ->
    drop (12 * k) (encode_all es ++ rest) = encode_all (drop k es) ++ rest.
Proof.
  induction es as [|e es IH]; intros k Hk.
  - cbn [length] in Hk. replace k with 0%nat by lia. reflexivity.
  - destruct k as [|k]; [reflexivity|].
    cbn [length] in Hk. cbn [drop].
    unfold encode_all in *. cbn [flat_map]. rewrite <- app_assoc.
    replace (12 * S k)%nat with (length (encode e) + 12 * k)%nat
      by (rewrite encode_length; lia).
    rewrite drop_app_add. apply IH. lia.
Qed.

Lemma numbered_lookup (ps : list Z) :
  forall (a : Z) (k : nat) (p : Z),
    ps !! k = Some p -> numbered a ps !! k = Some (a + Z.of_nat k, p).
Proof.
  induction ps as [|q ps IH]; intros a k p H; [discriminate|].
  destruct k as [|k]; cbn [numbered].
  - cbn in H. inversion H. cbn. do 2 f_equal. lia.
  - change ((q :: ps) !! S k) with (ps !! k) in H.
    change (((a, q) :: numbered (a + 1) ps) !! S k) with (numbered (a + 1) ps !! k).
    rewrite (IH (a + 1) k p H). do 2 f_equal. lia.
Qed.

Lemma numbered_length (ps : list Z) :
  forall a, length (numbered a ps) = length ps.
Proof. induction ps as [|q ps IH]; intros a; cbn; [reflexivity|]. now rewrite IH. Qed.

(** Reading back entry number [k] of a run of writes into an empty
    index. *)
Lemma Read_written (i0 i : index) (es : list (Z * Z)) (k : nat) (off pos : Z) :
  size i0 = 0 -> len es <= 2 ^ 32 ->
  write_all i0 es = (i, Ok tt) ->
  es !! k = Some (off, pos) ->
  Read i (Z.of_nat k) = Ok (uint32 off, uint64 pos).
Proof.
  intros Hs Hn Hw Hk.
  assert (Hlt : (k < length es)%nat) by (eapply lookup_lt_Some; eauto).
  apply write_all_Ok in Hw; [| unfold len; lia | lia].
  destruct Hw as (H1 & H2 & _ & H4).
  rewrite Hs in *. rewrite Z.add_0_l in *.
  change (Z.to_nat 0) with 0%nat in H4. rewrite take_0, app_nil_l in H4.
  assert (Hm : len (mmap i) = len (mmap i0)).
  { rewrite H4. unfold len in *. rewrite !length_app, length_drop, encode_all_length. lia. }
  unfold len in *.
  rewrite (Read_present i (Z.of_nat k) (Z.of_nat k)).
  - rewrite H4.
    replace (Z.to_nat (12 * Z.of_nat k)) with (12 * k)%nat by lia.
    replace (Z.to_nat (12 * Z.of_nat k + 4)) with (12 * k + 4)%nat by lia.
    rewrite <- drop_drop, drop_encode_all by lia.
    rewrite (drop_S _ _ _ Hk). unfold encode_all. cbn [flat_map].
    unfold encode at 1 3. cbn [fst snd]. rewrite <- !app_assoc.
    rewrite Uint32_PutUint32.
    change 4%nat with (length (Binary.PutUint32 off)) at 1.
    rewrite drop_app_length, Uint64_PutUint64. reflexivity.
  - destruct (Z.of_nat k =? -1) eqn:E; [lia|].
    symmetry. apply uint32_small. lia.
  - lia.
  - unfold len. lia.
Qed.

End IndexWrites.

(** ** The index: opening, closing, and runs of calls *)

Section IndexLife.
Import Index.

Lemma syscall_same (f f1 : OS.File) (o : OS.outcome) :
  OS.syscall f = (o, f1) ->
  OS.name f1 = OS.name f /\ OS.data f1 = OS.data f /\ OS.opened f1 = OS.opened f.
Proof.
  unfold OS.syscall. destruct (OS.plan f); intros H; inversion H; subst; auto.
Qed.

Lemma syscall_quiet (f : OS.File) :
  OS.plan f = [] -> OS.syscall f = (OS.Done, f).
Proof. unfold OS.syscall. now intros ->. Qed.

(** What a successful [newIndex] has set up. *)
Lemma newIndex_Ok (f f' : OS.File) (c : Config) (i : index) :
  newIndex f c = (f', Ok i) ->
  let m := int64 (MaxIndexBytes (Segment c)) in
  0 < m
  /\ size i = uint64 (len (OS.data f))
  /\ mmap i = resize (Z.to_nat m) x00 (OS.data f)
  /\ file i = f'
  /\ OS.data f' = mmap i.
Proof.
  unfold newIndex, OS.Stat, OS.Truncate, Gommap.Map.
  destruct (OS.syscall f) as [o1 f1] eqn:E1.
  apply syscall_same in E1 as (_ & D1 & _).
  destruct o1; [|discriminate].
  destruct (OS.syscall f1) as [o2 f2] eqn:E2.
  apply syscall_same in E2 as (_ & D2 & _).
  destruct o2; [|discriminate].
  destruct (int64 (MaxIndexBytes (Segment c)) <? 0) eqn:Eneg; [discriminate|].
  destruct (OS.opened _); [|discriminate].
  destruct (OS.syscall _) as [o3 f3] eqn:E3.
  apply syscall_same in E3 as (_ & D3 & _).
  cbn [OS.with_data OS.data] in D3.
  destruct o3; [|discriminate].
  destruct (len (OS.data f3) =? 0) eqn:Elen; [discriminate|].
  intros H; inversion H; subst; clear H. cbn [size mmap file].
  rewrite D3, D2, D1 in *.
  unfold len in Elen. rewrite length_resize in Elen.
  apply Z.ltb_ge in Eneg. apply Z.eqb_neq in Elen.
  split; [lia|]. repeat split; reflexivity.
Qed.

Lemma Close_keeps (i : index) :
  size (fst (Close i)) = size i /\ mmap (fst (Close i)) = mmap i.
Proof.
  unfold Close.
  destruct (Gommap.Sync _ _) as [f1 [[]| |]]; cbn; auto.
  destruct (OS.File_Sync _) as [f2 [[]| |]]; cbn; auto.
  destruct (OS.File_Truncate _ _) as [f3 [[]| |]]; cbn; auto.
  destruct (OS.File_Close _) as [f4 r]; cbn; auto.
Qed.

Section Bounded.

(** The length of the mapped region, an [int]. *)
Variable M : Z.
Hypothesis M_int : M < 2 ^ 63.

(** Every call keeps [size] within bounds and the mapping at its
    length. *)
Lemma step_bounds (i : index) (c : call) :
  len (mmap i) = M -> 0 <= size i < 2 ^ 63 ->
  len (mmap (step i c)) = M /\ 0 <= size (step i c) < 2 ^ 63.
Proof.
  intros Hlen Hs. destruct c as [off pos| | |]; cbn [step]; auto.
  - destruct (Z.lt_ge_cases (len (mmap i)) (size i + 12)).
    + rewrite Write_full by lia. auto.
    + rewrite Write_room by lia. cbn [fst size mmap]. split; [|lia].
      unfold len in *.
      rewrite !length_app, length_take, length_drop, encode_length. lia.
  - destruct (Close_keeps i) as [-> ->]. auto.
Qed.

Lemma run_bounds (cs : list call) :
  forall i,
    len (mmap i) = M -> 0 <= size i < 2 ^ 63 ->
    len (mmap (run i cs)) = M /\ 0 <= size (run i cs) < 2 ^ 63.
Proof.
  induction cs as [|c cs IH]; intros i Hlen Hs; [auto|].
  unfold run in *. cbn [fold_left].
  destruct (step_bounds i c Hlen Hs). now apply IH.
Qed.

End Bounded.

(** Every call keeps the invariant of the index. *)
Lemma step_index_ok (i : index) (c : call) :
  len (mmap i) < 2 ^ 63 -> index_ok i ->
  index_ok (step i c) /\ len (mmap (step i c)) = len (mmap i).
Proof.
  intros HM [Hmod Hs]. unfold index_ok.
  destruct c as [off pos| | |]; cbn [step]; auto.
  - destruct (Z.lt_ge_cases (len (mmap i)) (size i + 12)).
    + rewrite Write_full by lia. auto.
    + rewrite Write_room by lia. cbn [fst size mmap].
      assert (len (take (Z.to_nat (size i)) (mmap i) ++ encode (off, pos)
                   ++ drop (Z.to_nat (size i + 12)) (mmap i)) = len (mmap i)) as ->.
      { unfold len in *.
        rewrite !length_app, length_take, length_drop, encode_length. lia. }
      rewrite totWidth_eq in *. repeat split; try lia. zdm.
  - destruct (Close_keeps i) as [-> ->]. auto.
Qed.

Lemma run_index_ok (cs : list call) :
  forall i,
    len (mmap i) < 2 ^ 63 -> index_ok i ->
    index_ok (run i cs) /\ len (mmap (run i cs)) = len (mmap i).
Proof.
  induction cs as [|c cs IH]; intros i HM Hok; [auto|].
  unfold run in *. cbn [fold_left].
  destruct (step_index_ok i c HM Hok) as [Hok' Hlen'].
  rewrite <- Hlen' in HM. destruct (IH _ HM Hok') as [? ?].
  split; [assumption | congruence].
Qed.

End IndexLife.

(** ** The index: the stated properties *)

Section IndexClaims.
Import Index.

Lemma write_all_len (es : list (Z * Z)) (i i' : index) :
  0 <= size i <= len (mmap i) ->
  size i + 12 * len es < 2 ^ 64 ->
  write_all i es = (i', Ok tt) ->
  len (mmap i') = len (mmap i).
Proof.
  intros Hs Hb Hw.
  destruct (write_all_Ok es i i' Hs Hb Hw) as (H1 & H2 & _ & H4).
  rewrite H4. unfold len in *.
  rewrite !length_app, length_take, length_drop, encode_all_length. lia.
Qed.

Lemma int64_config (m : Z) : 0 <= m < 2 ^ 64 -> 0 < int64 m -> int64 m = m /\ m < 2 ^ 63.
Proof. unfold int64. intros H1 H2. zdm. Qed.

End IndexClaims.

(** C7. On a freshly opened index that holds no entry (the file was empty),
    [Read] fails with [io.EOF], the end-of-data kind, whatever its argument;
    in particular for the arguments [-1] and [0]. *)
Theorem index_read_empty (f f' : OS.File) (c : Index.Config) (i : Index.index) :
  OS.data f = [] ->
  Index.newIndex f c = (f', Ok i) ->
  Index.size i = 0
  /\ (forall in_ : Z, Index.Read i in_ = Err EOF)
  /\ Index.Read i (-1) = Err EOF
  /\ Index.Read i 0 = Err EOF.
Proof.
  intros Hd Hn. apply newIndex_Ok in Hn as (_ & Hs & _).
  rewrite Hd in Hs. change (uint64 (len [])) with 0 in Hs.
  assert (H : forall in_ : Z, Index.Read i in_ = Err EOF).
  { intros in_. unfold Index.Read. now rewrite Hs. }
  auto.
Qed.

Lemma index_read_empty_witness :
  Index.size Examples.fresh_index = 0
  /\ (forall in_ : Z, Index.Read Examples.fresh_index in_ = Err EOF)
  /\ Index.Read Examples.fresh_index (-1) = Err EOF
  /\ Index.Read Examples.fresh_index 0 = Err EOF.
Proof.
  apply (index_read_empty (Examples.empty_file "index_test")
           (Index.file Examples.fresh_index) (Examples.config 1024)
           Examples.fresh_index).
  - reflexivity.
  - vm_compute. reflexivity.
Defined.

(** C4. On an index opened with capacity [maxBytes], after any calls,
    [Write] fails exactly when [size + 12 > maxBytes]; it then returns
    [io.EOF], which is no I/O failure (the error of a failed system call is
    never [io.EOF]), and leaves the index as it was; otherwise it succeeds.
    With [maxBytes = 1024] the first 85 writes succeed and the 86th fails
    with [io.EOF]. *)
Theorem index_write_capacity :
  (forall (f f' : OS.File) (c : Index.Config) (i0 : Index.index)
          (cs : list Index.call) (off pos : Z),
      let maxBytes := Index.MaxIndexBytes (Index.Segment c) in
      let i := Index.run i0 cs in
      0 <= maxBytes < 2 ^ 64 ->
      len (OS.data f) < 2 ^ 63 ->
      Index.newIndex f c = (f', Ok i0) ->
      (Index.Write i off pos = (i, Err EOF) <-> Index.size i + 12 > maxBytes)
      /\ (snd (Index.Write i off pos) <> Ok tt <-> Index.size i + 12 > maxBytes)
      /\ (Index.size i + 12 <= maxBytes ->
          snd (Index.Write i off pos) = Ok tt
          /\ Index.size (fst (Index.Write i off pos)) = Index.size i + 12))
  /\ (is_io_failure EOF = false
      /\ forall errno : nat,
           is_io_failure (SyscallError errno) = true /\ SyscallError errno <> EOF)
  /\ (forall (es : list (Z * Z)) (off pos : Z),
         length es = 85%nat ->
         exists i,
           Index.write_all Examples.fresh_index es = (i, Ok tt)
           /\ Index.Write i off pos = (i, Err EOF)).
Proof.
  split; [|split; [split; [reflexivity | intros errno; split; [reflexivity | discriminate]]|]].
  - intros f f' c i0 cs off pos maxBytes i HM Hf Hn.
    apply newIndex_Ok in Hn as (Hpos & Hs & Hm & _).
    fold maxBytes in Hpos, Hm.
    destruct (int64_config _ HM Hpos) as [E HM'].
    rewrite E in Hm.
    assert (Hlen0 : len (Index.mmap i0) = maxBytes).
    { rewrite Hm. unfold len. rewrite length_resize. lia. }
    assert (Hs0 : 0 <= Index.size i0 < 2 ^ 63).
    { rewrite Hs, uint64_small; unfold len in *; lia. }
    destruct (run_bounds maxBytes HM' cs i0 Hlen0 Hs0) as [Hlen Hsz].
    fold i in Hlen, Hsz.
    destruct (Z.lt_ge_cases maxBytes (Index.size i + 12)) as [Hfull|Hroom].
    + rewrite Write_full by lia.
      cbn [snd]. repeat split; try lia; intros; try congruence; try lia.
    + rewrite Write_room by lia. cbn [fst snd Index.size].
      repeat split; try lia; intros; try congruence.
  - intros es off pos Hes.
    assert (S0 : Index.size Examples.fresh_index = 0) by (vm_compute; reflexivity).
    assert (L0 : len (Index.mmap Examples.fresh_index) = 1024) by (vm_compute; reflexivity).
    destruct (write_all_room es Examples.fresh_index) as [i Hi];
      [unfold len in *; lia ..|].
    exists i. split; [assumption|].
    assert (Hs : 0 <= Index.size Examples.fresh_index
                 <= len (Index.mmap Examples.fresh_index)) by lia.
    assert (Hb : Index.size Examples.fresh_index + 12 * len es < 2 ^ 64)
      by (unfold len; lia).
    destruct (write_all_Ok es _ _ Hs Hb Hi) as (H1 & _).
    pose proof (write_all_len es _ _ Hs Hb Hi) as H2.
    apply Write_full; unfold len in *; lia.
Qed.

Lemma index_write_capacity_witness :
  let i := Index.run Examples.fresh_index [Index.CallWrite 0 0; Index.CallWrite 1 10] in
  (Index.Write i 2 20 = (i, Err EOF) <-> Index.size i + 12 > 1024)
  /\ (snd (Index.Write i 2 20) <> Ok tt <-> Index.size i + 12 > 1024)
  /\ (Index.size i + 12 <= 1024 ->
      snd (Index.Write i 2 20) = Ok tt
      /\ Index.size (fst (Index.Write i 2 20)) = Index.size i + 12).
Proof.
  apply (proj1 index_write_capacity (Examples.empty_file "index_test")
           (Index.file Examples.fresh_index) (Examples.config 1024)
           Examples.fresh_index [Index.CallWrite 0 0; Index.CallWrite 1 10] 2 20).
  - simpl. lia.
  - vm_compute. reflexivity.
  - vm_compute. reflexivity.
Defined.

(** C3, as the code has it.  After the entries with relative offsets
    [0 .. n-1] ([1 <= n <= 2^32], the offsets being [uint32]) have been
    written in order to an empty index, [Read k] returns the pair written at
    step [k] for every [k < n], [Read (-1)] returns what [Read (n-1)]
    returns, and [Read k] fails with [io.EOF] for [n <= k < 2^32]. *)
Theorem index_read_written (i0 i : Index.index) (ps : list Z) :
  Index.size i0 = 0 ->
  1 <= len ps <= 2 ^ 32 ->
  Forall (fun p => 0 <= p < 2 ^ 64) ps ->
  Index.write_all i0 (Index.numbered 0 ps) = (i, Ok tt) ->
  (forall (k : nat) (p : Z),
      ps !! k = Some p -> Index.Read i (Z.of_nat k) = Ok (Z.of_nat k, p))
  /\ Index.Read i (-1) = Index.Read i (len ps - 1)
  /\ (forall k : Z, len ps <= k < 2 ^ 32 -> Index.Read i k = Err EOF).
Proof.
  intros Hs Hn Hps Hw.
  assert (Hlen : len (Index.numbered 0 ps) = len ps)
    by (unfold len; now rewrite numbered_length).
  split; [|split].
  - intros k p Hk.
    assert (Hlt : (k < length ps)%nat) by (eapply lookup_lt_Some; eauto).
    rewrite (Read_written i0 i (Index.numbered 0 ps) k (0 + Z.of_nat k) p); auto.
    + rewrite uint32_small by (unfold len in *; lia).
      rewrite uint64_small; [reflexivity|].
      rewrite Forall_forall in Hps. apply Hps.
      eapply list_elem_of_lookup_2; eauto.
    + lia.
    + now apply numbered_lookup.
  - apply write_all_Ok in Hw; [| unfold len; lia | lia].
    destruct Hw as (H1 & H2 & _ & H4). rewrite Hlen, Hs in *.
    assert (Hm : Index.size i <= len (Index.mmap i)).
    { rewrite H4. unfold len in *.
      rewrite !length_app, length_drop, encode_all_length, numbered_length. lia. }
    rewrite (Read_present i (-1) (len ps - 1)), (Read_present i (len ps - 1) (len ps - 1));
      try lia; auto.
    + destruct (len ps - 1 =? -1) eqn:E; [lia|].
      symmetry. apply uint32_small. lia.
    + change (-1 =? -1) with true. cbv iota. rewrite H1, totWidth_eq.
      replace ((0 + 12 * len ps) / 12 - 1) with (len ps - 1) by zdm.
      rewrite uint64_small by lia. symmetry. apply uint32_small. lia.
  - intros k Hk.
    apply write_all_Ok in Hw; [| unfold len; lia | lia].
    destruct Hw as (H1 & _). rewrite Hlen, Hs in *.
    apply (Read_absent i k k); [|lia].
    destruct (k =? -1) eqn:E; [lia|].
    symmetry. apply uint32_small. lia.
Qed.

Lemma index_read_written_witness :
  (forall (k : nat) (p : Z),
      [0; 10] !! k = Some p ->
      Index.Read Examples.two_entries (Z.of_nat k) = Ok (Z.of_nat k, p))
  /\ Index.Read Examples.two_entries (-1) = Index.Read Examples.two_entries (len [0; 10] - 1)
  /\ (forall k : Z, len [0; 10] <= k < 2 ^ 32 -> Index.Read Examples.two_entries k = Err EOF).
Proof.
  apply (index_read_written Examples.fresh_index Examples.two_entries [0; 10]).
  - reflexivity.
  - unfold len. simpl. lia.
  - repeat constructor; lia.
  - vm_compute. reflexivity.
Defined.

(** With two entries written, the argument [2^32] reads entry 0, as the
    argument [0] does. *)
Example read_two_entries_wraps :
  Index.Read Examples.two_entries (2 ^ 32) = Ok (0, 0)
  /\ Index.Read Examples.two_entries 0 = Ok (0, 0)
  /\ Index.Read Examples.two_entries (2 ^ 32 + 1) = Ok (1, 10)
  /\ Index.Read Examples.two_entries 2 = Err EOF.
Proof. vm_compute. repeat split; reflexivity. Qed.

(** C3, as stated, fails: with two entries written, [Read (2^32)] does not
    fail although [2^32 >= 2]; it returns entry 0. *)
Lemma index_read_beyond_counterexample :
  ~ (forall k : Z, 2 <= k -> Index.Read Examples.two_entries k = Err EOF).
Proof.
  intros H. specialize (H (2 ^ 32) ltac:(lia)).
  vm_compute in H. discriminate H.
Qed.

(** C10, as the code has it.  For an argument other than [-1], [Read] uses
    the entry number [in_ mod 2^32]: [2^32 + k] reads entry [k] (and
    succeeds when entry [k] is there), a negative [in_] above [-2^32] reads
    entry [2^32 + in_] and so fails with [io.EOF] on an index of fewer than
    [2^32 + in_ + 1] entries, and [-2^32] reads entry 0. *)
Theorem index_read_truncates_argument (i : Index.index) :
  (forall in_ : Z, in_ <> -1 -> Index.Read i in_ = Index.Read i (in_ mod 2 ^ 32))
  /\ (forall k : Z,
         0 <= k < 2 ^ 32 ->
         Index.Read i (2 ^ 32 + k) = Index.Read i k
         /\ (12 * k + 12 <= Index.size i -> Index.size i <= len (Index.mmap i) ->
             Index.Read i (2 ^ 32 + k)
             = Ok (Binary.Uint32 (drop (Z.to_nat (12 * k)) (Index.mmap i)),
                   Binary.Uint64 (drop (Z.to_nat (12 * k + 4)) (Index.mmap i)))))
  /\ (forall in_ : Z,
         - 2 ^ 32 < in_ < -1 ->
         Index.size i < 12 * (2 ^ 32 + in_ + 1) ->
         Index.Read i in_ = Err EOF)
  /\ Index.Read i (- 2 ^ 32) = Index.Read i 0.
Proof.
  assert (Hmod : forall in_ : Z,
             in_ <> -1 -> Index.Read i in_ = Index.Read i (in_ mod 2 ^ 32)).
  { intros in_ Hne. unfold Index.Read.
    destruct (in_ =? -1) eqn:E1; [lia|].
    destruct (in_ mod 2 ^ 32 =? -1) eqn:E2; [zdm|].
    unfold uint32. now rewrite Z.mod_mod by lia. }
  split; [exact Hmod|]. split; [|split].
  - intros k Hk.
    assert (E : Index.Read i (2 ^ 32 + k) = Index.Read i k).
    { rewrite Hmod by lia. f_equal. zdm. }
    split; [exact E|]. intros H1 H2. rewrite E.
    apply Read_present; try assumption.
    destruct (k =? -1) eqn:E1; [lia|]. symmetry. apply uint32_small. lia.
  - intros in_ Hin Hs.
    apply (Read_absent i in_ (2 ^ 32 + in_)); [|lia].
    destruct (in_ =? -1) eqn:E1; [lia|]. unfold uint32. zdm.
  - rewrite Hmod by lia. reflexivity.
Qed.

Lemma index_read_truncates_argument_witness :
  Index.Read Examples.two_entries (2 ^ 32 + 1) = Index.Read Examples.two_entries 1
  /\ Index.Read Examples.two_entries (-2) = Err EOF.
Proof.
  split.
  - refine (proj1 (proj1 (proj2 (index_read_truncates_argument Examples.two_entries)) 1 _)).
    lia.
  - apply (proj1 (proj2 (proj2 (index_read_truncates_argument Examples.two_entries))) (-2)).
    + lia.
    + vm_compute. reflexivity.
Defined.

(** With two entries written: [-2] is entry [2^32 - 2], which is not
    there; [-2^32] and [-2^32 + 1] are entries 0 and 1. *)
Example read_two_entries_negative :
  Index.Read Examples.two_entries (-2) = Err EOF
  /\ Index.Read Examples.two_entries (- 2 ^ 32) = Ok (0, 0)
  /\ Index.Read Examples.two_entries (- 2 ^ 32 + 1) = Ok (1, 10).
Proof. vm_compute. repeat split; reflexivity. Qed.

(** C10, as stated, fails: not every negative argument other than [-1]
    makes [Read] fail; [-2^32] reads entry 0. *)
Lemma index_read_negative_counterexample :
  ~ (forall in_ : Z,
        in_ < 0 -> in_ <> -1 -> Index.Read Examples.two_entries in_ = Err EOF).
Proof.
  intros H. specialize (H (- 2 ^ 32) ltac:(lia) ltac:(lia)).
  vm_compute in H. discriminate H.
Qed.

(** C8. An index opened on a file whose length is a multiple of 12 and at
    most the configured capacity keeps, through every run of [Write],
    [Read], [Name] and [Close], a [size] that is a multiple of 12 and at
    most the length of the mapped region, which is the capacity. *)
Theorem index_size_invariant (f f' : OS.File) (c : Index.Config) (i0 : Index.index)
    (cs : list Index.call) :
  0 <= Index.MaxIndexBytes (Index.Segment c) < 2 ^ 64 ->
  len (OS.data f) mod 12 = 0 ->
  len (OS.data f) <= Index.MaxIndexBytes (Index.Segment c) ->
  Index.newIndex f c = (f', Ok i0) ->
  Index.size (Index.run i0 cs) mod 12 = 0
  /\ 0 <= Index.size (Index.run i0 cs) <= len (Index.mmap (Index.run i0 cs))
  /\ len (Index.mmap (Index.run i0 cs)) = Index.MaxIndexBytes (Index.Segment c).
Proof.
  intros HM Hmod Hle Hn.
  apply newIndex_Ok in Hn as (Hpos & Hs & Hm & _).
  destruct (int64_config _ HM Hpos) as [E HM'].
  rewrite E in Hm.
  assert (Hlen0 : len (Index.mmap i0) = Index.MaxIndexBytes (Index.Segment c)).
  { rewrite Hm. unfold len. rewrite length_resize. lia. }
  assert (Hok0 : Index.index_ok i0).
  { unfold Index.index_ok. rewrite Hs, uint64_small, totWidth_eq by (unfold len in *; lia).
    unfold len in *. lia. }
  destruct (run_index_ok cs i0 ltac:(lia) Hok0) as [[H1 H2] H3].
  rewrite totWidth_eq in H1. rewrite H3, Hlen0 in *. auto.
Qed.

Lemma index_size_invariant_witness :
  let i := Index.run Examples.fresh_index
             [Index.CallWrite 0 0; Index.CallRead 0; Index.CallName;
              Index.CallWrite 1 10; Index.CallClose] in
  Index.size i mod 12 = 0
  /\ 0 <= Index.size i <= len (Index.mmap i)
  /\ len (Index.mmap i) = 1024.
Proof.
  apply (index_size_invariant (Examples.empty_file "index_test")
           (Index.file Examples.fresh_index) (Examples.config 1024)
           Examples.fresh_index).
  - simpl. lia.
  - reflexivity.
  - vm_compute. discriminate.
  - vm_compute. reflexivity.
Defined.

(** ** The index across a restart *)

Section IndexRestart.
Import Index.

(** The configuration the index is opened with, before and after the
    restart; its capacity is a positive [int64]. *)
Variable c : Config.
Hypothesis capacity : 0 < MaxIndexBytes (Segment c) < 2 ^ 63.

(** [newIndex] on an open file on which no system call fails. *)
Lemma newIndex_quiet (f : OS.File) :
  OS.opened f = true -> OS.plan f = [] ->
  let m := resize (Z.to_nat (MaxIndexBytes (Segment c))) x00 (OS.data f) in
  newIndex f c =
  (OS.with_data f m,
   Ok {| file := OS.with_data f m; mmap := m; size := uint64 (len (OS.data f)) |}).
Proof.
  intros Ho Hp m. pose proof capacity as HM.
  unfold newIndex, OS.Stat, OS.Truncate, Gommap.Map.
  rewrite int64_small by lia.
  destruct (MaxIndexBytes (Segment c) <? 0) eqn:E; [lia|].
  repeat first
    [ rewrite syscall_quiet by (cbn; assumption)
    | rewrite Ho
    | progress cbn [OS.with_data OS.opened OS.data OS.plan OS.name] ].
  fold m.
  destruct (len m =? 0) eqn:E2; [|reflexivity].
  apply Z.eqb_eq in E2. unfold len, m in E2. rewrite length_resize in E2. lia.
Qed.

(** [Close] on an open file on which no system call fails: the file is
    left with the used part of the mapping, and closed. *)
Lemma Close_quiet (i : index) :
  OS.opened (file i) = true -> OS.plan (file i) = [] ->
  0 <= size i <= len (mmap i) -> size i < 2 ^ 63 ->
  length (OS.data (file i)) = length (mmap i) ->
  Close i =
  ({| file := {| OS.name := OS.name (file i);
                 OS.data := take (Z.to_nat (size i)) (mmap i);
                 OS.opened := false; OS.plan := [] |};
      mmap := mmap i; size := size i |}, Ok tt).
Proof.
  intros Ho Hp Hs Hb Hl.
  unfold Close, Gommap.Sync, OS.File_Sync, OS.File_Truncate, OS.Truncate, OS.File_Close.
  rewrite int64_small by lia.
  destruct (size i <? 0) eqn:E; [lia|].
  repeat first
    [ rewrite syscall_quiet by (cbn; assumption)
    | rewrite Ho
    | rewrite Hp
    | progress cbn [OS.with_data OS.opened OS.data OS.plan OS.name] ].
  rewrite Hl, firstn_all. rewrite <- Hl, drop_all, app_nil_r.
  rewrite resize_le by (unfold len in *; lia).
  reflexivity.
Qed.

(** A slice inside a prefix that two byte sequences share. *)
Lemma slice_prefix (m rest : list byte) (s lo hi : Z) :
  hi <= s <= len m ->
  slice (take (Z.to_nat s) m ++ rest) lo hi = slice m lo hi.
Proof.
  intros H. unfold slice.
  assert (L1 : (hi <=? len (take (Z.to_nat s) m ++ rest)) = true).
  { apply Z.leb_le. unfold len in *. rewrite length_app, length_take. lia. }
  assert (L2 : (hi <=? len m) = true) by (apply Z.leb_le; lia).
  rewrite L1, L2. unfold len in *.
  destruct ((0 <=? lo) && (lo <=? hi)) eqn:E; [|reflexivity].
  apply andb_true_iff in E as [E1 E2].
  cbn [andb]. f_equal.
  rewrite drop_app_le by (rewrite length_take; lia).
  rewrite take_app_le by (rewrite length_drop, length_take; lia).
  rewrite !take_drop_commute, take_take. do 2 f_equal. lia.
Qed.

(** [Read] looks at [size] and at the first [size] bytes of the mapping
    only. *)
Lemma Read_prefix (i : index) (rest : list byte) (in_ : Z) :
  0 <= size i <= len (mmap i) ->
  Read {| file := file i; mmap := take (Z.to_nat (size i)) (mmap i) ++ rest;
          size := size i |} in_
  = Read i in_.
Proof.
  intros Hs. unfold Read. cbn [size mmap].
  destruct (size i =? 0); [reflexivity|].
  set (out := if in_ =? -1 then _ else _).
  assert (Hr : 0 <= out < 2 ^ 32) by (subst out; destruct (in_ =? -1); apply uint32_range).
  rewrite totWidth_eq, offWidth_eq.
  rewrite (uint64_small (out * 12)) by lia.
  rewrite !uint64_small by lia.
  destruct (size i <? out * 12 + 12) eqn:E; [reflexivity|].
  rewrite !slice_prefix by lia. reflexivity.
Qed.

(** The last entry, for an index of [n] entries. *)
Lemma Read_sentinel (i : index) (n : Z) :
  size i = 12 * n -> 1 <= n <= 2 ^ 32 ->
  Read i (-1) = Read i (n - 1).
Proof.
  intros Hs Hn. unfold Read.
  destruct (n - 1 =? -1) eqn:E; [lia|].
  change (-1 =? -1) with true. cbv iota. rewrite Hs, totWidth_eq.
  replace (12 * n / 12 - 1) with (n - 1) by zdm.
  rewrite (uint64_small (n - 1)) by lia. reflexivity.
Qed.

(** Closing an index and opening a new one on the same file, with the
    same configuration and no failing system call, recovers [size] and
    every answer of [Read]. *)
Lemma restart_recovers (i : index) :
  OS.opened (file i) = true -> OS.plan (file i) = [] ->
  0 <= size i <= len (mmap i) ->
  len (mmap i) = MaxIndexBytes (Segment c) ->
  length (OS.data (file i)) = length (mmap i) ->
  exists closed f' reopened,
    Close i = (closed, Ok tt)
    /\ len (OS.data (file closed)) = size i
    /\ newIndex (OS.OpenFile (file closed)) c = (f', Ok reopened)
    /\ size reopened = size i
    /\ forall in_ : Z, Read reopened in_ = Read i in_.
Proof.
  intros Ho Hp Hs Hlen Hl. pose proof capacity as HM.
  rewrite Close_quiet by (try assumption; lia).
  eexists _, _, _. split; [reflexivity|]. cbn [file OS.data].
  assert (Ht : len (take (Z.to_nat (size i)) (mmap i)) = size i).
  { unfold len in *. rewrite length_take. lia. }
  split; [exact Ht|].
  rewrite newIndex_quiet by (try reflexivity; assumption).
  cbn [OS.OpenFile OS.data]. split; [reflexivity|]. cbn [size].
  rewrite Ht, uint64_small by lia. split; [reflexivity|].
  intros in_. rewrite resize_ge by (unfold len in *; rewrite length_take; lia).
  apply (Read_prefix i). assumption.
Qed.

End IndexRestart.

(** C5. Restart recovery: after the entries (0,0) and (1,10) have been
    written to an index opened on a new file, [Close] succeeds and leaves a
    file of 24 bytes, the used size without the padding; a new index opened
    on that file with the same configuration has [size = 24], and its
    [Read (-1)] returns (1, 10). *)
Theorem index_restart_recovery (name : string) (maxBytes : Z) :
  24 <= maxBytes < 2 ^ 63 ->
  exists f1 i0 i2 closed f2 reopened,
    Index.newIndex (Examples.empty_file name) (Examples.config maxBytes) = (f1, Ok i0)
    /\ Index.write_all i0 [(0, 0); (1, 10)] = (i2, Ok tt)
    /\ Index.Close i2 = (closed, Ok tt)
    /\ len (OS.data (Index.file closed)) = 24
    /\ Index.newIndex (OS.OpenFile (Index.file closed)) (Examples.config maxBytes)
       = (f2, Ok reopened)
    /\ Index.size reopened = 24
    /\ Index.Read reopened (-1) = Ok (1, 10).
Proof.
  intros HM.
  assert (Hcap : 0 < Index.MaxIndexBytes (Index.Segment (Examples.config maxBytes))
                 < 2 ^ 63)
    by (cbn [Examples.config Index.MaxIndexBytes Index.Segment]; lia).
  rewrite (newIndex_quiet _ Hcap) by reflexivity.
  cbn [Examples.config Index.MaxIndexBytes Index.Segment Examples.empty_file OS.data].
  set (m := resize (Z.to_nat maxBytes) x00 []).
  assert (Hm : len m = maxBytes) by (unfold len, m; rewrite length_resize; lia).
  change (uint64 (len [])) with 0.
  set (i0 := {| Index.file := _; Index.mmap := m; Index.size := 0 |}).
  assert (Hz : Index.size i0 = 0) by reflexivity.
  assert (Hmm : len (Index.mmap i0) = maxBytes) by exact Hm.
  assert (Hl2 : len [(0, 0); (1, 10)] = 2) by reflexivity.
  destruct (write_all_room [(0, 0); (1, 10)] i0) as [i2 Hw]; [lia ..|].
  assert (Hs0 : 0 <= Index.size i0 <= len (Index.mmap i0)) by lia.
  assert (Hb0 : Index.size i0 + 12 * len [(0, 0); (1, 10)] < 2 ^ 64) by lia.
  destruct (write_all_Ok _ _ _ Hs0 Hb0 Hw) as (H1 & H2 & H3 & _).
  pose proof (write_all_len _ _ _ Hs0 Hb0 Hw) as H4.
  rewrite Hz, Hl2 in H1.
  destruct (restart_recovers _ Hcap i2)
    as (closed & f2 & reopened & Hc & Hd & Hn & Hsz & Hrd).
  { rewrite H3. reflexivity. }
  { rewrite H3. reflexivity. }
  { lia. }
  { cbn [Examples.config Index.MaxIndexBytes Index.Segment]. lia. }
  { rewrite H3. cbn [i0 Index.file OS.with_data OS.data].
    unfold len in *. lia. }
  exists (Index.file i0), i0, i2, closed, f2, reopened.
  split; [reflexivity|]. split; [exact Hw|]. split; [exact Hc|].
  split; [lia|]. split; [exact Hn|]. split; [lia|].
  rewrite Hrd, (Read_sentinel i2 2) by lia.
  apply (Read_written i0 i2 [(0, 0); (1, 10)] 1 1 10); auto.
  lia.
Qed.

Lemma index_restart_recovery_witness :
  exists f1 i0 i2 closed f2 reopened,
    Index.newIndex (Examples.empty_file "index_test") (Examples.config 1024) = (f1, Ok i0)
    /\ Index.write_all i0 [(0, 0); (1, 10)] = (i2, Ok tt)
    /\ Index.Close i2 = (closed, Ok tt)
    /\ len (OS.data (Index.file closed)) = 24
    /\ Index.newIndex (OS.OpenFile (Index.file closed)) (Examples.config 1024)
       = (f2, Ok reopened)
    /\ Index.size reopened = 24
    /\ Index.Read reopened (-1) = Ok (1, 10).
Proof.
  apply (index_restart_recovery "index_test" 1024). lia.
Defined.

(** C9 fails on the code.  When the truncation in [Close] fails, [Close]
    returns [nil]: the error is hidden, the file stays open and keeps its
    1024 bytes, and an index opened on it afterwards takes the padding for
    entries.  A failing map-sync, by contrast, is returned. *)
Theorem index_close_hides_truncate_failure :
  let closed := fst (Index.Close Examples.two_entries_bad_truncate) in
  snd (Index.Close Examples.two_entries_bad_truncate) = Ok tt
  /\ OS.opened (Index.file closed) = true
  /\ len (OS.data (Index.file closed)) = 1024
  /\ Index.Read
       (Examples.opened_index (OS.OpenFile (Index.file closed)) (Examples.config 1024))
       (-1) = Ok (0, 0)
  /\ snd (Index.Close
            {| Index.file :=
                 {| OS.name := "index_test"; OS.data := [];
                    OS.opened := true; OS.plan := [OS.Fault 0 5] |};
               Index.mmap := Index.mmap Examples.two_entries;
               Index.size := 24 |})
     = Err (SyscallError 5).
Proof.
  vm_compute. repeat split; reflexivity.
Qed.

(** ** The buffered writer *)

Section BufioFacts.
Import Bufio.

Lemma syscall_keeps_quiet (f f1 : OS.File) (o : OS.outcome) :
  OS.syscall f = (o, f1) -> OS.quiet f -> o = OS.Done /\ OS.quiet f1.
Proof.
  unfold OS.syscall, OS.quiet. destruct (OS.plan f) as [|o' rest] eqn:E.
  - intros H _. inversion H; subst. rewrite E. auto.
  - intros H Hq. inversion H; subst. cbn. inversion Hq; subst. auto.
Qed.

(** [f.Write(b)]: what reaches the file. *)
Lemma File_Write_spec (f f1 : OS.File) (b : list byte) (n : Z) (e : option error) :
  OS.File_Write f b = (f1, n, e) ->
  OS.opened f1 = OS.opened f
  /\ OS.data f1 = OS.data f ++ take (Z.to_nat n) b
  /\ 0 <= n <= len b
  /\ (e = None -> n = len b)
  /\ (OS.quiet f -> OS.quiet f1)
  /\ (OS.opened f = true -> OS.quiet f -> e = None).
Proof.
  unfold OS.File_Write. destruct (OS.opened f) eqn:Ho.
  - destruct (OS.syscall f) as [o f0] eqn:Es.
    pose proof (syscall_keeps_quiet _ _ _ Es) as Hq.
    apply syscall_same in Es as (_ & Hd & Ho').
    destruct o as [|k errno]; intros H; inversion H; subst; clear H;
      cbn [OS.with_data OS.opened OS.data]; rewrite Hd, Ho', Ho.
    + unfold len. rewrite Nat2Z.id, firstn_all.
      repeat split; auto; try lia. intros Q. destruct (Hq Q) as [_ Q']. exact Q'.
    + unfold len. rewrite Nat2Z.id, length_take, <- take_take, firstn_all.
      repeat split; auto; try lia; try discriminate.
      * intros Q. destruct (Hq Q) as [_ Q']. exact Q'.
      * intros _ Q. destruct (Hq Q). discriminate.
  - intros H; inversion H; subst; clear H. cbn. rewrite app_nil_r.
    repeat split; auto; try lia; try discriminate. unfold len. lia.
Qed.

(** [Flush] never loses a byte: what it does not write stays buffered. *)
Lemma Flush_spec (f f1 : OS.File) (b b1 : Writer) (e : option error) :
  Flush f b = (f1, b1, e) ->
  e = err b1
  /\ OS.opened f1 = OS.opened f
  /\ OS.data f1 ++ buf b1 = OS.data f ++ buf b
  /\ len (buf b1) <= len (buf b)
  /\ (err b1 = None -> buf b1 = [])
  /\ (OS.quiet f -> OS.quiet f1)
  /\ (OS.opened f = true -> OS.quiet f -> err b = None -> err b1 = None).
Proof.
  unfold Flush. destruct (err b) as [e0|] eqn:Ee.
  { intros H; inversion H; subst. rewrite Ee.
    repeat split; auto; try lia; discriminate. }
  destruct (Buffered b =? 0) eqn:E0.
  { intros H; inversion H; subst. rewrite Ee.
    repeat split; auto; try lia.
    intros _. apply Z.eqb_eq in E0. unfold Buffered, len in E0.
    destruct (buf b1); [reflexivity|]. cbn [length] in E0. lia. }
  destruct (OS.File_Write f (buf b)) as [[f0 n] e0] eqn:Ew.
  destruct (File_Write_spec _ _ _ _ _ Ew) as (Ho & Hd & Hn & Hfull & Hq & Hok).
  unfold Buffered.
  destruct (if (n <? len (buf b)) && is_nil e0 then Some ErrShortWrite else e0)
    as [e'|] eqn:E'.
  - intros H; inversion H; subst; clear H. cbn [buf err].
    rewrite Hd, <- app_assoc, take_drop.
    repeat split; auto; try discriminate.
    + unfold len. rewrite length_drop. lia.
    + intros Hopen Q _. specialize (Hok Hopen Q). subst e0.
      specialize (Hfull eq_refl).
      destruct (n <? len (buf b)) eqn:En; [lia|]. discriminate.
  - intros H; inversion H; subst; clear H. cbn [buf err].
    destruct e0; [destruct (_ && _); discriminate|].
    specialize (Hfull eq_refl). subst n.
    unfold len in Hd. rewrite Nat2Z.id, firstn_all in Hd.
    rewrite Hd, app_nil_r. repeat split; auto. unfold len. cbn. lia.
Qed.

End BufioFacts.

Section BufioWrite.
Import Bufio.

Lemma take_drop_length (k : nat) (p : list byte) :
  take k p ++ drop (length (take k p)) p = p.
Proof.
  rewrite length_take. destruct (Nat.le_gt_cases k (length p)).
  - rewrite Nat.min_l by lia. apply take_drop.
  - rewrite Nat.min_r by lia. rewrite take_ge, drop_all by lia. apply app_nil_r.
Qed.

Lemma more_true (b : Writer) (p : list byte) :
  more b p = true -> Available b < len p /\ err b = None.
Proof.
  unfold more. intros H. apply andb_true_iff in H as [H1 H2].
  apply Z.ltb_lt in H1. destruct (err b); [discriminate|]. auto.
Qed.

Lemma more_false (b : Writer) (p : list byte) :
  more b p = false -> len p <= Available b \/ err b <> None.
Proof.
  unfold more. intros H. apply andb_false_iff in H as [H|H].
  - apply Z.ltb_ge in H. auto.
  - destruct (err b); [right; discriminate | discriminate].
Qed.

Lemma Buffered_0 (b : Writer) : (Buffered b =? 0) = true -> buf b = [].
Proof.
  intros H. apply Z.eqb_eq in H. unfold Buffered, len in H.
  destruct (buf b); [reflexivity|]. cbn [length] in H. lia.
Qed.

Lemma copy_length (b : Writer) (p : list byte) :
  len (buf b) <= defaultBufSize -> len (buf b ++ copy b p) <= defaultBufSize.
Proof.
  unfold copy, Available, len. intros H. rewrite length_app, length_take. lia.
Qed.

(** The loop of [Write] loses no byte, counts what it has consumed, keeps
    the buffer within its capacity, and meets an error only if a system
    call fails. *)
Lemma write_loop_spec (fuel : nat) :
  forall f b p nn f1 b1 p1 nn1,
    write_loop fuel f b p nn = (f1, b1, p1, nn1) ->
    OS.opened f1 = OS.opened f
    /\ OS.data f1 ++ buf b1 ++ p1 = OS.data f ++ buf b ++ p
    /\ nn1 + len p1 = nn + len p
    /\ (len (buf b) <= defaultBufSize -> len (buf b1) <= defaultBufSize)
    /\ (OS.quiet f -> OS.quiet f1)
    /\ (err b1 = None -> err b = None)
    /\ (OS.opened f = true -> OS.quiet f -> err b = None -> err b1 = None).
Proof.
  induction fuel as [|fuel IH]; intros f b p nn f1 b1 p1 nn1 H.
  { cbn in H. inversion H; subst. repeat split; auto. }
  cbn [write_loop] in H.
  destruct (more b p) eqn:Em.
  2: { inversion H; subst. repeat split; auto. }
  apply more_true in Em as [Hav Herr].
  destruct (Buffered b =? 0) eqn:E0.
  - apply Buffered_0 in E0.
    destruct (OS.File_Write f p) as [[f0 n] e] eqn:Ew.
    destruct (File_Write_spec _ _ _ _ _ Ew) as (Ho & Hd & Hn & Hfull & Hq & Hok).
    apply IH in H as (I1 & I2 & I3 & I4 & I5 & I6 & I7). cbn [buf err] in *.
    rewrite E0 in *. cbn [app] in *.
    split; [congruence|]. split.
    { rewrite I2, Hd, <- app_assoc, take_drop. reflexivity. }
    split.
    { rewrite I3. unfold len in *. rewrite length_drop. lia. }
    split; [auto|]. split; [auto|]. split; [auto|].
    intros Hopen Q _. apply I7; auto. congruence.
  - set (c := copy b p) in *.
    destruct (Flush f {| buf := buf b ++ c; err := err b |}) as [[f0 b0] e] eqn:Ef.
    destruct (Flush_spec _ _ _ _ _ Ef) as (_ & Ho & Hd & Hl & _ & Hq & Hok).
    cbn [buf err] in *.
    apply IH in H as (I1 & I2 & I3 & I4 & I5 & I6 & I7).
    split; [congruence|]. split.
    { rewrite I2, app_assoc, Hd, <- !app_assoc. do 2 f_equal.
      apply take_drop_length. }
    split.
    { rewrite I3. unfold len in *. rewrite length_drop.
      assert (length c <= length p)%nat by (unfold c, copy; rewrite length_take; lia).
      lia. }
    split.
    { intros Hb. apply I4. pose proof (copy_length b p Hb). fold c in H. lia. }
    split; [auto|]. split; [auto|].
    intros Hopen Q _. apply I7; auto. congruence.
Qed.

(** Once the condition of the loop is false, nothing more happens. *)
Lemma write_loop_done (fuel : nat) f b p nn :
  more b p = false -> write_loop fuel f b p nn = (f, b, p, nn).
Proof. intros H. destruct fuel; cbn [write_loop]; [reflexivity|]. now rewrite H. Qed.

(** After a direct write the condition of the loop is false. *)
Lemma direct_write_done f b p f0 n e :
  buf b = [] -> OS.File_Write f p = (f0, n, e) ->
  more {| buf := buf b; err := e |} (drop (Z.to_nat n) p) = false.
Proof.
  intros Hb Hw. destruct (File_Write_spec _ _ _ _ _ Hw) as (_ & _ & Hn & Hfull & _).
  unfold more, Available. cbn [buf err]. rewrite Hb.
  destruct e; [apply andb_false_r|]. rewrite (Hfull eq_refl).
  unfold len. rewrite length_drop. cbn [length].
  destruct (_ <? _) eqn:E; [|reflexivity]. apply Z.ltb_lt in E. unfold defaultBufSize in E. lia.
Qed.

(** Two rounds are enough: more fuel changes nothing. *)
Lemma write_loop_fuel (k : nat) f b p nn :
  write_loop (2 + k) f b p nn = write_loop 2 f b p nn.
Proof.
  cbn [Nat.add write_loop].
  destruct (more b p) eqn:Em; [|reflexivity].
  destruct (Buffered b =? 0) eqn:E0.
  - apply Buffered_0 in E0.
    destruct (OS.File_Write f p) as [[f0 n] e] eqn:Ew.
    rewrite (direct_write_done _ _ _ _ _ _ E0 Ew). reflexivity.
  - destruct (Flush _ _) as [[f0 b0] e] eqn:Ef.
    destruct (Flush_spec _ _ _ _ _ Ef) as (_ & _ & _ & _ & Hnil & _).
    destruct (more b0 _) eqn:Em2; [|reflexivity].
    pose proof (more_true _ _ Em2) as [_ He]. specialize (Hnil He).
    assert (E1 : (Buffered b0 =? 0) = true) by (unfold Buffered; now rewrite Hnil).
    rewrite E1.
    destruct (OS.File_Write f0 _) as [[f2 n2] e2] eqn:Ew.
    rewrite write_loop_done by (apply (direct_write_done _ _ _ _ _ _ Hnil Ew)).
    reflexivity.
Qed.

(** ... and when the two rounds are over, the loop has ended. *)
Lemma write_loop_exit f b p nn f1 b1 p1 nn1 :
  write_loop 2 f b p nn = (f1, b1, p1, nn1) -> more b1 p1 = false.
Proof.
  intros H. pose proof (write_loop_fuel 1 f b p nn) as H3. rewrite H in H3.
  cbn [Nat.add] in H3.
  destruct (more b1 p1) eqn:Em; [|reflexivity]. exfalso.
  (* a third round would change the state *)
  revert H H3. cbn [write_loop].
  destruct (more b p) eqn:Em0.
  2: { intros H; inversion H; subst. congruence. }
  destruct (Buffered b =? 0) eqn:E0.
  - apply Buffered_0 in E0.
    destruct (OS.File_Write f p) as [[f0 n] e] eqn:Ew.
    rewrite (direct_write_done _ _ _ _ _ _ E0 Ew).
    intros H; inversion H; subst.
    rewrite (direct_write_done _ _ _ _ _ _ E0 Ew) in Em. discriminate.
  - destruct (Flush _ _) as [[f0 b0] e] eqn:Ef.
    destruct (Flush_spec _ _ _ _ _ Ef) as (_ & _ & _ & _ & Hnil & _).
    destruct (more b0 _) eqn:Em2.
    2: { intros H; inversion H; subst. congruence. }
    pose proof (more_true _ _ Em2) as [_ He]. specialize (Hnil He).
    assert (E1 : (Buffered b0 =? 0) = true) by (unfold Buffered; now rewrite Hnil).
    rewrite E1.
    destruct (OS.File_Write f0 _) as [[f2 n2] e2] eqn:Ew.
    intros H; inversion H; subst.
    rewrite (direct_write_done _ _ _ _ _ _ Hnil Ew) in Em. discriminate.
Qed.

End BufioWrite.

Section BufioWriteSpec.
Import Bufio.

(** [b.Write(p)]: on success all of [p] has been taken, into the file or
    into the buffer, and the count is [len(p)]; the error returned is the
    writer's sticky error. *)
Lemma Write_spec (f f1 : OS.File) (b b1 : Writer) (p : list byte) (nn : Z)
    (e : option error) :
  Write f b p = (f1, b1, nn, e) ->
  e = err b1
  /\ OS.opened f1 = OS.opened f
  /\ (len (buf b) <= defaultBufSize -> len (buf b1) <= defaultBufSize)
  /\ (OS.quiet f -> OS.quiet f1)
  /\ (e = None ->
      err b = None /\ OS.data f1 ++ buf b1 = OS.data f ++ buf b ++ p /\ nn = len p)
  /\ (OS.opened f = true -> OS.quiet f -> err b = None -> e = None).
Proof.
  unfold Write.
  destruct (write_loop 2 f b p 0) as [[[f0 b0] p0] n0] eqn:El.
  pose proof (write_loop_exit _ _ _ _ _ _ _ _ El) as Hex.
  destruct (write_loop_spec _ _ _ _ _ _ _ _ _ El) as (L1 & L2 & L3 & L4 & L5 & L6 & L7).
  destruct (err b0) as [e0|] eqn:Ee.
  - intros H; inversion H; subst; clear H. rewrite Ee.
    repeat split; auto; try discriminate.
  - intros H; inversion H; subst; clear H. cbn [buf err].
    apply more_false in Hex as [Hfit|Hne]; [|congruence].
    assert (Hc : copy b0 p0 = p0).
    { unfold copy. apply take_ge. unfold len in *. lia. }
    rewrite Hc.
    split; [reflexivity|]. split; [exact L1|]. split.
    { intros Hb. specialize (L4 Hb). unfold Available, len in *.
      rewrite length_app. lia. }
    split; [exact L5|]. split; [|reflexivity].
    intros _. split; [auto|]. split; [|lia].
    exact L2.
Qed.

End BufioWriteSpec.

(** ** The store *)

Section StoreFacts.
Import Store.

Lemma lenWidth_eq : lenWidth = 8.
Proof. reflexivity. Qed.

(** What [Append] does, whatever its outcome. *)
Lemma Append_spec (s s' : store) (p : list byte) (r : result (Z * Z)) :
  Append s p = (s', r) ->
  OS.opened (File s') = OS.opened (File s)
  /\ (len (Bufio.buf (buf s)) <= Bufio.defaultBufSize ->
      len (Bufio.buf (buf s')) <= Bufio.defaultBufSize)
  /\ (OS.quiet (File s) -> OS.quiet (File s'))
  /\ r <> Panic
  /\ (forall e, r = Err e -> size s' = size s /\ Bufio.err (buf s') = Some e)
  /\ (forall n pos,
         r = Ok (n, pos) ->
         n = uint64 (len p + 8)
         /\ pos = size s
         /\ size s' = uint64 (size s + uint64 (len p + 8))
         /\ Bufio.err (buf s) = None
         /\ Bufio.err (buf s') = None
         /\ OS.data (File s') ++ Bufio.buf (buf s')
            = (OS.data (File s) ++ Bufio.buf (buf s))
              ++ Binary.PutUint64 (uint64 (len p)) ++ p)
  /\ (OS.opened (File s) = true -> OS.quiet (File s) -> Bufio.err (buf s) = None ->
      exists n pos, r = Ok (n, pos)).
Proof.
  unfold Append, binary_Write.
  destruct (Bufio.Write (File s) (buf s) _) as [[[f1 b1] w1] e1] eqn:E1.
  destruct (Write_spec _ _ _ _ _ _ _ E1) as (A1 & A2 & A3 & A4 & A5 & A6).
  destruct e1 as [e1|].
  { intros H; inversion H; subst; clear H. cbn [File buf size].
    split; [exact A2|]. split; [exact A3|]. split; [exact A4|].
    split; [discriminate|]. split; [|split].
    - intros e' He. inversion He; subst. auto.
    - intros n pos He. discriminate He.
    - intros Ho Q Hb. specialize (A6 Ho Q Hb). discriminate. }
  destruct (A5 eq_refl) as (B1 & B2 & _).
  destruct (Bufio.Write f1 b1 p) as [[[f2 b2] w2] e2] eqn:E2.
  destruct (Write_spec _ _ _ _ _ _ _ E2) as (C1 & C2 & C3 & C4 & C5 & C6).
  destruct e2 as [e2|].
  { intros H; inversion H; subst; clear H. cbn [File buf size].
    split; [congruence|]. split; [auto|]. split; [auto|].
    split; [discriminate|]. split; [|split].
    - intros e' He. inversion He; subst. auto.
    - intros n pos He. discriminate He.
    - intros Ho Q Hb. assert (Some e2 = None); [|discriminate].
      apply C6; auto. congruence. }
  destruct (C5 eq_refl) as (D1 & D2 & D3).
  intros H; inversion H; subst; clear H. cbn [File buf size].
  rewrite lenWidth_eq.
  split; [congruence|]. split; [auto|]. split; [auto|].
  split; [discriminate|]. split; [|split].
  - intros e' He. discriminate He.
  - intros n pos He. inversion He; subst.
    repeat split; auto.
    rewrite D2, app_assoc, B2, <- !app_assoc. reflexivity.
  - intros _ _ _. eauto.
Qed.


End StoreFacts.

Section StoreInvariant.
Import Store.

(** Reading changes neither the bytes of the file nor its descriptor. *)
Lemma File_ReadAt_same (f f2 : OS.File) (n off : Z) (b : list byte)
    (e2 : option error) :
  OS.File_ReadAt f n off = (f2, b, e2) ->
  OS.opened f2 = OS.opened f /\ OS.data f2 = OS.data f.
Proof.
  unfold OS.File_ReadAt.
  destruct (OS.opened f) eqn:Eo; [|intros HH; inversion HH; subst; auto].
  destruct (off <? 0); [intros HH; inversion HH; subst; auto|].
  destruct (n <=? 0); [intros HH; inversion HH; subst; auto|].
  destruct (OS.syscall f) as [o f0] eqn:Es.
  apply syscall_same in Es as (_ & Hd0 & Ho0).
  destruct o; [destruct (_ <? _)|]; intros HH; inversion HH; subst;
    split; congruence.
Qed.

(** [newStore] on an open file sets up the invariant. *)
Lemma newStore_ok (f f1 : OS.File) (s : store) :
  OS.opened f = true -> len (OS.data f) < 2 ^ 64 ->
  newStore f = (f1, Ok s) ->
  store_ok s /\ size s = len (OS.data f) /\ Bufio.buf (buf s) = []
  /\ Bufio.err (buf s) = None.
Proof.
  intros Ho Hl. unfold newStore, OS.Stat.
  destruct (OS.syscall f) as [o f0] eqn:Es.
  apply syscall_same in Es as (_ & Hd & Ho0).
  destruct o; [|discriminate].
  intros H; inversion H; subst; clear H.
  unfold store_ok. cbn [File buf size Bufio.buf Bufio.err Bufio.NewWriter].
  rewrite Hd, Ho0, uint64_small by (unfold len in *; lia).
  repeat split; auto.
  - unfold len, Bufio.defaultBufSize. cbn. lia.
  - intros _. unfold len. cbn [length]. lia.
Qed.


(** [Read] keeps the invariant. *)
Lemma Read_ok (s s' : store) (pos : Z) (r : result (list byte)) :
  store_ok s -> Read s pos = (s', r) -> store_ok s'.
Proof.
  intros (Ho & Hb & Hs). unfold Read.
  destruct (Bufio.Flush (File s) (buf s)) as [[f1 b1] e] eqn:Ef.
  destruct (Flush_spec _ _ _ _ _ Ef) as (He & Ho1 & Hd & Hl & _ & _ & _).
  assert (Hinv : forall f2, OS.opened f2 = true -> OS.data f2 = OS.data f1 ->
             store_ok {| File := f2; buf := b1; size := size s |}).
  { intros f2 Ho2 Hd2. unfold store_ok. cbn [File buf size].
    split; [assumption|]. split; [lia|]. intros He1.
    destruct (Bufio.err (buf s)) as [e0|] eqn:Ee.
    - unfold Bufio.Flush in Ef. rewrite Ee in Ef. inversion Ef; subst. congruence.
    - rewrite (Hs eq_refl), Hd2.
      apply (f_equal (@length byte)) in Hd. rewrite !length_app in Hd.
      unfold len. lia. }
  pose proof File_ReadAt_same as Hrd.
  destruct e as [e|].
  { intros H; inversion H; subst. apply Hinv; congruence. }
  destruct (OS.File_ReadAt f1 lenWidth (int64 pos)) as [[f2 sizeb] e2] eqn:E2.
  destruct (Hrd _ _ _ _ _ _ E2) as [Ho2 Hd2].
  destruct e2 as [e2|].
  { intros H; inversion H; subst. apply Hinv; congruence. }
  destruct (make_ok _).
  2: { intros H; inversion H; subst. apply Hinv; congruence. }
  destruct (OS.File_ReadAt f2 _ _) as [[f3 b] e3] eqn:E3.
  destruct (Hrd _ _ _ _ _ _ E3) as [Ho3 Hd3].
  destruct e3; intros H; inversion H; subst; apply Hinv; congruence.
Qed.

(** [ReadAt] keeps the invariant. *)
Lemma ReadAt_ok (s s' : store) (n off : Z) (b : list byte) (e : option error) :
  store_ok s -> ReadAt s n off = (s', b, e) -> store_ok s'.
Proof.
  intros (Ho & Hb & Hs). unfold ReadAt.
  destruct (Bufio.Flush (File s) (buf s)) as [[f1 b1] e1] eqn:Ef.
  destruct (Flush_spec _ _ _ _ _ Ef) as (He & Ho1 & Hd & Hl & _ & _ & _).
  assert (Hinv : forall f2, OS.opened f2 = true -> OS.data f2 = OS.data f1 ->
             store_ok {| File := f2; buf := b1; size := size s |}).
  { intros f2 Ho2 Hd2. unfold store_ok. cbn [File buf size].
    split; [assumption|]. split; [lia|]. intros He1.
    destruct (Bufio.err (buf s)) as [e0|] eqn:Ee.
    - unfold Bufio.Flush in Ef. rewrite Ee in Ef. inversion Ef; subst. congruence.
    - rewrite (Hs eq_refl), Hd2.
      apply (f_equal (@length byte)) in Hd. rewrite !length_app in Hd.
      unfold len. lia. }
  destruct e1 as [e1|].
  { intros H; inversion H; subst. apply Hinv; congruence. }
  destruct (OS.File_ReadAt f1 n off) as [[f2 b2] e2] eqn:E2.
  destruct (File_ReadAt_same _ _ _ _ _ _ E2) as [Ho2 Hd2].
  intros H; inversion H; subst. apply Hinv; congruence.
Qed.

End StoreInvariant.

(** ** The store: the stated properties *)

(** C2. A successful [Append] of [p] returns [8 + len p] bytes written and
    the size the store had before the call, and moves [size] on by
    [8 + len p] (file lengths stay below [2^64]); so of two successful
    appends in a row the second starts [8 + len p1] behind the first.
    [Append] does succeed on an open store whose writer has met no error and
    whose file accepts the writes.  On an empty store, "hello world" and
    then "foo" return (19, 0) and (11, 19), and both can be read back. *)
Theorem store_append_postcondition :
  (forall (s s' : Store.store) (p : list byte) (n pos : Z),
      0 <= Store.size s -> Store.size s + 8 + len p < 2 ^ 64 ->
      Store.Append s p = (s', Ok (n, pos)) ->
      n = 8 + len p /\ pos = Store.size s /\ Store.size s' = Store.size s + 8 + len p)
  /\ (forall (s s1 s2 : Store.store) (p1 p2 : list byte) (n1 pos1 n2 pos2 : Z),
         0 <= Store.size s -> Store.size s + 8 + len p1 < 2 ^ 64 ->
         Store.Append s p1 = (s1, Ok (n1, pos1)) ->
         Store.Append s1 p2 = (s2, Ok (n2, pos2)) ->
         pos2 = pos1 + 8 + len p1)
  /\ (forall (s : Store.store) (p : list byte),
         OS.opened (Store.File s) = true -> OS.quiet (Store.File s) ->
         Bufio.err (Store.buf s) = None ->
         exists s' n pos, Store.Append s p = (s', Ok (n, pos)))
  /\ (let s1 := fst (Store.Append Examples.fresh_store Examples.hello_world) in
      let s2 := fst (Store.Append s1 Examples.foo) in
      snd (Store.Append Examples.fresh_store Examples.hello_world) = Ok (19, 0)
      /\ snd (Store.Append s1 Examples.foo) = Ok (11, 19)
      /\ snd (Store.Read s2 0) = Ok Examples.hello_world
      /\ snd (Store.Read s2 19) = Ok Examples.foo).
Proof.
  assert (Hpost : forall (s s' : Store.store) (p : list byte) (n pos : Z),
             0 <= Store.size s -> Store.size s + 8 + len p < 2 ^ 64 ->
             Store.Append s p = (s', Ok (n, pos)) ->
             n = 8 + len p /\ pos = Store.size s
             /\ Store.size s' = Store.size s + 8 + len p).
  { intros s s' p n pos H0 Hlt Ha.
    destruct (Append_spec _ _ _ _ Ha) as (_ & _ & _ & _ & _ & Aok & _).
    destruct (Aok n pos eq_refl) as (Hn & Hpos & Hsz & _).
    assert (0 <= len p) by (unfold len; lia).
    rewrite (uint64_small (len p + 8)) in Hn, Hsz by lia.
    rewrite uint64_small in Hsz by lia. lia. }
  split; [exact Hpost|]. split; [|split].
  - intros s s1 s2 p1 p2 n1 pos1 n2 pos2 H0 Hlt Ha1 Ha2.
    destruct (Hpost _ _ _ _ _ H0 Hlt Ha1) as (_ & Hp1 & Hs1).
    destruct (Append_spec _ _ _ _ Ha2) as (_ & _ & _ & _ & _ & Aok & _).
    destruct (Aok n2 pos2 eq_refl) as (_ & Hp2 & _). lia.
  - intros s p Ho Q He.
    destruct (Store.Append s p) as [s' r] eqn:Ha.
    destruct (Append_spec _ _ _ _ Ha) as (_ & _ & _ & _ & _ & _ & Atot).
    destruct (Atot Ho Q He) as (n & pos & ->). eauto.
  - vm_compute. repeat split; reflexivity.
Qed.

Lemma store_append_postcondition_witness :
  19 = 8 + len Examples.hello_world
  /\ 0 = Store.size Examples.fresh_store
  /\ Store.size (fst (Store.Append Examples.fresh_store Examples.hello_world))
     = Store.size Examples.fresh_store + 8 + len Examples.hello_world.
Proof.
  apply (proj1 store_append_postcondition Examples.fresh_store
           (fst (Store.Append Examples.fresh_store Examples.hello_world))
           Examples.hello_world 19 0).
  - vm_compute. discriminate.
  - vm_compute. reflexivity.
  - vm_compute. reflexivity.
Defined.

(** C6. A failed [Append] leaves [size] as it was, a successful one has
    added all of [8 + len p] (modulo [2^64]), and [Append] never panics; a
    failed index [Write] returns the index unchanged, and an index [Write]
    that does not succeed leaves [size] as it was. *)
Theorem append_failure_keeps_size :
  (forall (s s' : Store.store) (p : list byte) (e : error),
      Store.Append s p = (s', Err e) -> Store.size s' = Store.size s)
  /\ (forall (s s' : Store.store) (p : list byte) (n pos : Z),
         Store.Append s p = (s', Ok (n, pos)) ->
         Store.size s' = uint64 (Store.size s + uint64 (len p + 8)))
  /\ (forall (s : Store.store) (p : list byte), snd (Store.Append s p) <> Panic)
  /\ (forall (i i' : Index.index) (off pos : Z) (e : error),
         Index.Write i off pos = (i', Err e) -> i' = i)
  /\ (forall (i i' : Index.index) (off pos : Z) (r : result unit),
         Index.Write i off pos = (i', r) -> r <> Ok tt ->
         Index.size i' = Index.size i).
Proof.
  split; [|split; [|split; [|split]]].
  - intros s s' p e Ha.
    destruct (Append_spec _ _ _ _ Ha) as (_ & _ & _ & _ & Aerr & _).
    now destruct (Aerr e eq_refl).
  - intros s s' p n pos Ha.
    destruct (Append_spec _ _ _ _ Ha) as (_ & _ & _ & _ & _ & Aok & _).
    now destruct (Aok n pos eq_refl) as (_ & _ & Hsz & _).
  - intros s p. destruct (Store.Append s p) as [s' r] eqn:Ha.
    destruct (Append_spec _ _ _ _ Ha) as (_ & _ & _ & Hp & _). exact Hp.
  - intros i i' off pos e. unfold Index.Write.
    destruct (_ <? _); [intros H; inversion H; reflexivity|].
    destruct (slice _ _ _); [|discriminate].
    destruct (slice _ _ _); discriminate.
  - intros i i' off pos r. unfold Index.Write.
    destruct (_ <? _); [intros H; inversion H; reflexivity|].
    destruct (slice _ _ _); [|intros H; inversion H; reflexivity].
    destruct (slice _ _ _); intros H; inversion H; subst; [congruence|reflexivity].
Qed.

Lemma append_failure_keeps_size_witness :
  Store.size (fst (Store.Append Examples.full_disk_store Examples.big_record))
  = Store.size Examples.full_disk_store
  /\ fst (Index.Write Examples.full_index 1 10) = Examples.full_index.
Proof.
  split.
  - apply (proj1 append_failure_keeps_size Examples.full_disk_store _
             Examples.big_record (SyscallError 28)).
    vm_compute. reflexivity.
  - apply (proj1 (proj2 (proj2 (proj2 append_failure_keeps_size)))
             Examples.full_index _ 1 10 EOF).
    vm_compute. reflexivity.
Defined.


(** After the first append of the scenario nothing has reached the file:
    the nineteen bytes sit in the buffer of the writer. *)
Example append_is_buffered :
  let s1 := fst (Store.Append Examples.fresh_store Examples.hello_world) in
  OS.data (Store.File s1) = [] /\ len (Bufio.buf (Store.buf s1)) = 19.
Proof. vm_compute. split; reflexivity. Qed.


(** * Further properties of the code *)

(** ** The in-memory log of the server *)

Section ServerLog.
Import Server.

Lemma Append_records (c : Log) (r : Record_) :
  records (fst (Append c r))
  = records c ++ [{| Value := Value r; Offset := uint64 (len (records c)) |}].
Proof. reflexivity. Qed.

Lemma append_values_records (junk : Z) (vs : list (list byte)) :
  forall c : Log,
    len (records c) + len vs < 2 ^ 64 ->
    records (append_values c junk vs)
    = records c
      ++ imap (fun k v => {| Value := v; Offset := len (records c) + Z.of_nat k |}) vs.
Proof.
  induction vs as [|v vs IH]; intros c Hb.
  - cbn. now rewrite app_nil_r.
  - unfold append_values in *. cbn [fold_left]. unfold len in Hb. cbn [length] in Hb.
    rewrite IH; rewrite Append_records; unfold len; rewrite ?length_app; cbn [length]; [|lia].
    cbn [Value imap]. rewrite <- app_assoc. cbn [app]. f_equal.
    rewrite uint64_small by lia. f_equal.
    + f_equal. lia.
    + apply imap_ext. intros k x _. cbn. f_equal. lia.
Qed.

End ServerLog.

(** X1. [Append] returns the number of records the log held, the record is
    then read back at that offset with its [Offset] field set to it
    (whatever the caller had put there), and the records appended before
    are read as before. *)
Theorem log_append_then_read (c : Server.Log) (r : Server.Record_) :
  len (Server.records c) < 2 ^ 63 ->
  let c' := fst (Server.Append c r) in
  let off := len (Server.records c) in
  snd (Server.Append c r) = (off, None)
  /\ Server.Read c' off
     = Some ({| Server.Value := Server.Value r; Server.Offset := off |}, None)
  /\ (forall k : Z, 0 <= k < off -> Server.Read c' k = Server.Read c k).
Proof.
  intros Hb c' off.
  assert (Hn : 0 <= off) by (unfold off, len; lia).
  split; [|split].
  - unfold Server.Append. cbn [snd Server.Offset]. fold off.
    now rewrite uint64_small by lia.
  - unfold Server.Read. subst c'. rewrite Append_records. fold off.
    unfold len at 1. rewrite length_app. cbn [length].
    rewrite !uint64_small by (unfold off, len in *; lia).
    destruct (_ <=? off) eqn:E; [apply Z.leb_le in E; unfold off, len in *; lia|].
    unfold off, len. rewrite Nat2Z.id.
    rewrite lookup_app_r by lia. now rewrite Nat.sub_diag.
  - intros k Hk. unfold Server.Read. subst c'. rewrite Append_records.
    unfold len at 1. rewrite length_app. cbn [length].
    rewrite !uint64_small by (unfold off, len in *; lia).
    destruct (_ <=? k) eqn:E; [apply Z.leb_le in E; unfold off, len in *; lia|].
    destruct (len (Server.records c) <=? k) eqn:E2;
      [apply Z.leb_le in E2; unfold off in *; lia|].
    rewrite lookup_app_l by (unfold off, len in *; lia). reflexivity.
Qed.

Lemma log_append_then_read_witness :
  let c := fst (Server.Append Server.NewLog
                  {| Server.Value := Examples.foo; Server.Offset := 7 |}) in
  Server.Read (fst (Server.Append c
                      {| Server.Value := Examples.hello_world; Server.Offset := 7 |})) 1
  = Some ({| Server.Value := Examples.hello_world; Server.Offset := 1 |}, None).
Proof.
  intros c.
  refine (proj1 (proj2 (log_append_then_read c
            {| Server.Value := Examples.hello_world; Server.Offset := 7 |} _))).
  vm_compute. reflexivity.
Defined.

(** X2. [Read] fails, with [ErrOffsetNotFound] and the zero record, exactly
    for the offsets from the number of records on; below it, it returns a
    record of the log and no error, and never panics. *)
Theorem log_read_missing (c : Server.Log) (offset : Z) :
  len (Server.records c) < 2 ^ 63 ->
  0 <= offset ->
  (len (Server.records c) <= offset ->
   Server.Read c offset
   = Some ({| Server.Value := []; Server.Offset := 0 |}, Some Server.ErrOffsetNotFound))
  /\ (offset < len (Server.records c) ->
      exists r, Server.records c !! Z.to_nat offset = Some r
                /\ Server.Read c offset = Some (r, None)).
Proof.
  intros Hb H0. unfold Server.Read.
  rewrite uint64_small by (unfold len in *; lia).
  split; intros H.
  - destruct (_ <=? offset) eqn:E; [reflexivity | apply Z.leb_gt in E; lia].
  - destruct (_ <=? offset) eqn:E; [apply Z.leb_le in E; lia|].
    destruct (Server.records c !! Z.to_nat offset) as [r|] eqn:El.
    + eauto.
    + apply lookup_ge_None in El. unfold len in *. lia.
Qed.

Lemma log_read_missing_witness :
  Server.Read Server.NewLog 0
  = Some ({| Server.Value := []; Server.Offset := 0 |}, Some Server.ErrOffsetNotFound).
Proof.
  refine (proj1 (log_read_missing Server.NewLog 0 _ _) _).
  - vm_compute. reflexivity.
  - lia.
  - vm_compute. discriminate.
Defined.

(** X3. The offsets of a log built by appends are dense: after the values
    [vs] have been appended to a new log, the log holds [len vs] records and
    [Read k] returns the [k]-th value with [Offset = k], whatever offset the
    caller had written into the records. *)
Theorem log_offsets_dense (junk : Z) (vs : list (list byte)) :
  len vs < 2 ^ 63 ->
  let c := Server.append_values Server.NewLog junk vs in
  len (Server.records c) = len vs
  /\ forall (k : nat) (v : list byte),
       vs !! k = Some v ->
       Server.Read c (Z.of_nat k)
       = Some ({| Server.Value := v; Server.Offset := Z.of_nat k |}, None).
Proof.
  intros Hb c.
  assert (Hr : Server.records c
               = imap (fun k v => {| Server.Value := v; Server.Offset := Z.of_nat k |}) vs).
  { subst c. rewrite append_values_records
      by (change (len (Server.records Server.NewLog)) with 0; lia).
    reflexivity. }
  assert (Hl : len (Server.records c) = len vs).
  { rewrite Hr. unfold len. now rewrite length_imap. }
  split; [exact Hl|]. intros k v Hk.
  assert (Hlt : (k < length vs)%nat) by (eapply lookup_lt_Some; eauto).
  unfold Server.Read. rewrite Hl, uint64_small by (unfold len in *; lia).
  destruct (_ <=? _) eqn:E; [apply Z.leb_le in E; unfold len in *; lia|].
  rewrite Nat2Z.id, Hr, list_lookup_imap, Hk. reflexivity.
Qed.

Lemma log_offsets_dense_witness :
  let c := Server.append_values Server.NewLog 42 [Examples.foo; Examples.hello_world] in
  len (Server.records c) = 2
  /\ forall (k : nat) (v : list byte),
       [Examples.foo; Examples.hello_world] !! k = Some v ->
       Server.Read c (Z.of_nat k)
       = Some ({| Server.Value := v; Server.Offset := Z.of_nat k |}, None).
Proof.
  apply (log_offsets_dense 42 [Examples.foo; Examples.hello_world]).
  vm_compute. reflexivity.
Defined.

(** ** The index: single writes, existing files *)

Section IndexMore.
Import Index.

(** A successful [Write] found room. *)
Lemma Write_Ok_room (i i' : index) (off pos : Z) :
  0 <= size i -> size i + 12 < 2 ^ 64 ->
  Write i off pos = (i', Ok tt) ->
  size i + 12 <= len (mmap i)
  /\ i' = {| file := file i;
             mmap := take (Z.to_nat (size i)) (mmap i) ++ encode (off, pos)
                     ++ drop (Z.to_nat (size i + 12)) (mmap i);
             size := size i + 12 |}.
Proof.
  intros H0 H1 Hw.
  destruct (Z.lt_ge_cases (len (mmap i)) (size i + 12)) as [Hfull|Hroom].
  - rewrite Write_full in Hw by lia. discriminate.
  - rewrite Write_room in Hw by lia. inversion Hw. auto.
Qed.

(** Successful writes fit into the mapped region. *)
Lemma write_all_fits (es : list (Z * Z)) :
  forall i i',
    0 <= size i <= len (mmap i) -> len (mmap i) < 2 ^ 63 ->
    write_all i es = (i', Ok tt) ->
    size i + 12 * len es <= len (mmap i).
Proof.
  induction es as [|[off pos] es IH]; intros i i' Hs Hb Hw.
  - unfold len in *. cbn [length]. lia.
  - cbn [write_all] in Hw.
    destruct (Write i off pos) as [i1 [[]| |]] eqn:E; try discriminate.
    assert (H0 : 0 <= size i) by lia.
    assert (H1 : size i + 12 < 2 ^ 64) by lia.
    destruct (Write_Ok_room _ _ _ _ H0 H1 E) as [Hroom ->].
    apply IH in Hw; cbn [size mmap] in *; unfold len in *;
      rewrite ?length_app, ?length_take, ?length_drop, ?encode_length in *;
      cbn [length]; lia.
Qed.

(** Reading entry [k] of a mapping that starts with the encoded entries
    [es]. *)
Lemma Read_encoded (i : index) (es : list (Z * Z)) (rest : list byte)
    (k : nat) (off pos : Z) :
  mmap i = encode_all es ++ rest ->
  size i = 12 * len es -> len es <= 2 ^ 32 ->
  es !! k = Some (off, pos) ->
  Read i (Z.of_nat k) = Ok (uint32 off, uint64 pos).
Proof.
  intros Hm Hs Hn Hk.
  assert (Hlt : (k < length es)%nat) by (eapply lookup_lt_Some; eauto).
  unfold len in *.
  rewrite (Read_present i (Z.of_nat k) (Z.of_nat k)).
  - rewrite Hm.
    replace (Z.to_nat (12 * Z.of_nat k)) with (12 * k)%nat by lia.
    replace (Z.to_nat (12 * Z.of_nat k + 4)) with (12 * k + 4)%nat by lia.
    rewrite <- drop_drop, drop_encode_all by lia.
    rewrite (drop_S _ _ _ Hk). unfold encode_all. cbn [flat_map].
    unfold encode at 1 3. cbn [fst snd]. rewrite <- !app_assoc.
    rewrite Uint32_PutUint32.
    change 4%nat with (length (Binary.PutUint32 off)) at 1.
    rewrite drop_app_length, Uint64_PutUint64. reflexivity.
  - destruct (Z.of_nat k =? -1) eqn:E; [lia|].
    symmetry. apply uint32_small. lia.
  - lia.
  - rewrite Hm. unfold len. rewrite length_app, encode_all_length. lia.
Qed.

Lemma lookup_List_last (es : list (Z * Z)) (d : Z * Z) :
  es <> [] -> es !! (length es - 1)%nat = Some (List.last es d).
Proof.
  destruct es as [|e0 es']; [congruence|]. intros _.
  cbn [length]. rewrite Nat.sub_1_r, Nat.pred_succ.
  revert e0. induction es' as [|e1 es' IH]; intros e0; [reflexivity|].
  change ((e0 :: e1 :: es') !! length (e1 :: es')) with ((e1 :: es') !! length es').
  rewrite IH. reflexivity.
Qed.

(** The file operations of [Close] and the writes keep the path. *)
Lemma syscall_name (f f1 : OS.File) (o : OS.outcome) :
  OS.syscall f = (o, f1) -> OS.name f1 = OS.name f.
Proof. intros H. now apply syscall_same in H. Qed.

Lemma Close_name (i : index) : Name (fst (Close i)) = Name i.
Proof.
  unfold Name, Close, Gommap.Sync, OS.File_Sync, OS.File_Truncate, OS.Truncate,
    OS.File_Close.
  destruct (OS.syscall (file i)) as [o1 f1] eqn:E1. apply syscall_name in E1.
  destruct o1; [|cbn; congruence].
  cbn [OS.with_data OS.opened OS.name].
  destruct (OS.opened f1) eqn:Eo; [|cbn; congruence].
  destruct (OS.syscall (OS.with_data f1 _)) as [o2 f2] eqn:E2.
  apply syscall_name in E2. cbn [OS.with_data OS.name] in E2.
  destruct o2; [|cbn; congruence].
  destruct (OS.opened f2) eqn:Eo2; [|cbn; congruence].
  destruct (OS.syscall f2) as [o3 f3] eqn:E3. apply syscall_name in E3.
  destruct o3; [|cbn; congruence].
  destruct (int64 (size i) <? 0); [cbn; congruence|].
  cbn [OS.with_data OS.opened].
  destruct (OS.opened f3) eqn:Eo3; [|cbn; congruence].
  destruct (OS.syscall (OS.with_data f3 _)) as [o4 f4] eqn:E4.
  apply syscall_name in E4. cbn [OS.with_data OS.name] in E4.
  destruct o4; cbn; congruence.
Qed.

Lemma Write_name (i : index) (off pos : Z) : Name (fst (Write i off pos)) = Name i.
Proof.
  unfold Name, Write.
  destruct (_ <? _); [reflexivity|].
  destruct (slice _ _ _); [|reflexivity].
  destruct (slice _ _ _); reflexivity.
Qed.

End IndexMore.

(** X4. A successful [Write] appends: the entry written is the last one
    ([Read (-1)], and [Read] at the old entry count, return it), and every
    entry written before is read as before. *)
Theorem index_write_then_read (i i' : Index.index) (off pos : Z) :
  Index.index_ok i ->
  Index.size i < 12 * 2 ^ 32 ->
  0 <= off < 2 ^ 32 -> 0 <= pos < 2 ^ 64 ->
  Index.Write i off pos = (i', Ok tt) ->
  Index.Read i' (-1) = Ok (off, pos)
  /\ Index.Read i' (Index.size i / 12) = Ok (off, pos)
  /\ (forall k : Z, 0 <= k -> 12 * k + 12 <= Index.size i ->
                    Index.Read i' k = Index.Read i k).
Proof.
  intros [Hmod Hs] Hlt Hoff Hpos Hw. rewrite totWidth_eq in Hmod.
  assert (A0 : 0 <= Index.size i) by lia.
  assert (A1 : Index.size i + 12 < 2 ^ 64) by lia.
  destruct (Write_Ok_room _ _ _ _ A0 A1 Hw) as [Hroom ->].
  set (n := Index.size i / 12).
  assert (Hn : Index.size i = 12 * n) by (unfold n; zdm).
  assert (Hlen : len (take (Z.to_nat (Index.size i)) (Index.mmap i)
                      ++ Index.encode (off, pos)
                      ++ drop (Z.to_nat (Index.size i + 12)) (Index.mmap i))
                 = len (Index.mmap i)).
  { unfold len in *. rewrite !length_app, length_take, length_drop, encode_length. lia. }
  assert (Hat : Index.Read
                  {| Index.file := Index.file i;
                     Index.mmap := take (Z.to_nat (Index.size i)) (Index.mmap i)
                                   ++ Index.encode (off, pos)
                                   ++ drop (Z.to_nat (Index.size i + 12)) (Index.mmap i);
                     Index.size := Index.size i + 12 |} n
                = Ok (off, pos)).
  { rewrite (Read_present _ n n); cbn [Index.size Index.mmap].
    - replace (Z.to_nat (12 * n))
        with (length (take (Z.to_nat (Index.size i)) (Index.mmap i)))
        by (rewrite length_take; unfold len in *; lia).
      replace (Z.to_nat (12 * n + 4))
        with (length (take (Z.to_nat (Index.size i)) (Index.mmap i)) + 4)%nat
        by (rewrite length_take; unfold len in *; lia).
      rewrite <- drop_drop, drop_app_length.
      unfold Index.encode at 1 2. cbn [fst snd]. rewrite <- !app_assoc.
      rewrite Uint32_PutUint32.
      change 4%nat with (length (Binary.PutUint32 off)).
      rewrite drop_app_length, Uint64_PutUint64.
      unfold uint32, uint64 in *. now rewrite !Z.mod_small by lia.
    - destruct (n =? -1) eqn:E; [lia|]. symmetry. apply uint32_small. lia.
    - lia.
    - lia. }
  split; [|split; [exact Hat|]].
  - rewrite (Read_sentinel _ (n + 1)) by (cbn [Index.size]; lia).
    replace (n + 1 - 1) with n by lia. exact Hat.
  - intros k Hk Hin. unfold Index.Read. cbn [Index.size Index.mmap].
    destruct (Index.size i + 12 =? 0) eqn:E1; [lia|].
    destruct (Index.size i =? 0) eqn:E2; [lia|].
    destruct (k =? -1) eqn:E3; [lia|].
    rewrite totWidth_eq, offWidth_eq, (uint32_small k) by lia.
    rewrite (uint64_small (k * 12)) by lia.
    rewrite !uint64_small by lia.
    destruct (Index.size i + 12 <? k * 12 + 12) eqn:E4; [lia|].
    destruct (Index.size i <? k * 12 + 12) eqn:E5; [lia|].
    rewrite !slice_prefix by lia. reflexivity.
Qed.

Lemma index_write_then_read_witness :
  Index.Read Examples.two_entries (-1) = Ok (1, 10)
  /\ Index.Read Examples.two_entries (12 / 12) = Ok (1, 10)
  /\ (forall k : Z, 0 <= k -> 12 * k + 12 <= 12 ->
                    Index.Read Examples.two_entries k
                    = Index.Read (fst (Index.Write Examples.fresh_index 0 0)) k).
Proof.
  apply (index_write_then_read (fst (Index.Write Examples.fresh_index 0 0))
           Examples.two_entries 1 10).
  - unfold Index.index_ok. vm_compute. split; [reflexivity | split; discriminate].
  - vm_compute. reflexivity.
  - lia.
  - lia.
  - vm_compute. reflexivity.
Defined.

(** X5. Opening an index on a file that holds the encoded entries [es] (and
    nothing else), with a capacity that has room for them, recovers them:
    [size] is [12 * len es], [Read k] returns entry [k], and [Read (-1)] the
    last one. *)
Theorem index_open_existing (f : OS.File) (c : Index.Config) (es : list (Z * Z)) :
  OS.opened f = true -> OS.plan f = [] ->
  OS.data f = Index.encode_all es ->
  0 < Index.MaxIndexBytes (Index.Segment c) < 2 ^ 63 ->
  12 * len es <= Index.MaxIndexBytes (Index.Segment c) ->
  len es <= 2 ^ 32 ->
  Forall (fun e => 0 <= fst e < 2 ^ 32 /\ 0 <= snd e < 2 ^ 64) es ->
  exists f' i,
    Index.newIndex f c = (f', Ok i)
    /\ Index.size i = 12 * len es
    /\ (forall (k : nat) (e : Z * Z), es !! k = Some e -> Index.Read i (Z.of_nat k) = Ok e)
    /\ (es <> [] -> Index.Read i (-1) = Ok (List.last es (0, 0))).
Proof.
  intros Ho Hp Hd HM Hcap Hn Hes.
  rewrite (newIndex_quiet c HM f Ho Hp). eexists _, _. split; [reflexivity|].
  cbn [Index.size]. rewrite Hd.
  assert (Hl : len (Index.encode_all es) = 12 * len es).
  { unfold len. rewrite encode_all_length. lia. }
  rewrite Hl, uint64_small by (unfold len in *; lia).
  split; [reflexivity|].
  rewrite resize_ge by (unfold len in *; lia).
  set (pad := replicate (Z.to_nat (Index.MaxIndexBytes (Index.Segment c))
                         - length (Index.encode_all es)) x00).
  assert (Hk : forall (k : nat) (e : Z * Z),
             es !! k = Some e ->
             Index.Read
               {| Index.file := OS.with_data f (Index.encode_all es ++ pad);
                  Index.mmap := Index.encode_all es ++ pad;
                  Index.size := 12 * len es |} (Z.of_nat k) = Ok e).
  { intros k [off pos] Hlk.
    rewrite (Read_encoded _ es pad k off pos); auto.
    rewrite Forall_forall in Hes.
    destruct (Hes (off, pos)) as [H1 H2]; [eapply list_elem_of_lookup_2; eauto|].
    cbn [fst snd] in *. now rewrite uint32_small, uint64_small by lia. }
  split; [exact Hk|].
  intros Hne.
  assert (Hpos : 1 <= len es).
  { destruct es; [congruence|]. unfold len. cbn [length]. lia. }
  rewrite (Read_sentinel _ (len es)) by (cbn [Index.size]; lia).
  replace (len es - 1) with (Z.of_nat (length es - 1)) by (unfold len in *; lia).
  apply Hk. now apply lookup_List_last.
Qed.

Lemma index_open_existing_witness :
  exists f' i,
    Index.newIndex Examples.entries_file (Examples.config 1024) = (f', Ok i)
    /\ Index.size i = 12 * len [(0, 0); (1, 10)]
    /\ (forall (k : nat) (e : Z * Z),
           [(0, 0); (1, 10)] !! k = Some e -> Index.Read i (Z.of_nat k) = Ok e)
    /\ ([(0, 0); (1, 10)] <> [] -> Index.Read i (-1) = Ok (List.last [(0, 0); (1, 10)] (0, 0))).
Proof.
  apply (index_open_existing Examples.entries_file (Examples.config 1024) [(0, 0); (1, 10)]).
  - reflexivity.
  - reflexivity.
  - reflexivity.
  - simpl. lia.
  - vm_compute. discriminate.
  - vm_compute. discriminate.
  - repeat constructor; simpl; lia.
Defined.

Section IndexOpenedWritten.
Import Index.

Variable c : Config.
Hypothesis capacity : 0 < MaxIndexBytes (Segment c) < 2 ^ 63.

(** The state of an index that was opened on an open file, with no failing
    system call, and then written to. *)
Lemma opened_then_written (f f1 : OS.File) (i0 i : index) (es : list (Z * Z)) :
  OS.opened f = true -> OS.plan f = [] ->
  len (OS.data f) <= MaxIndexBytes (Segment c) ->
  newIndex f c = (f1, Ok i0) ->
  write_all i0 es = (i, Ok tt) ->
  OS.opened (file i) = true
  /\ OS.plan (file i) = []
  /\ OS.name (file i) = OS.name f
  /\ len (mmap i) = MaxIndexBytes (Segment c)
  /\ length (OS.data (file i)) = length (mmap i)
  /\ size i = len (OS.data f) + 12 * len es
  /\ size i <= len (mmap i)
  /\ mmap i = OS.data f ++ encode_all es
              ++ drop (Z.to_nat (len (OS.data f) + 12 * len es))
                   (resize (Z.to_nat (MaxIndexBytes (Segment c))) x00 (OS.data f)).
Proof.
  intros Ho Hp Hle Hn Hw. pose proof capacity as HM.
  rewrite (newIndex_quiet c capacity f Ho Hp) in Hn. inversion Hn; subst f1 i0; clear Hn.
  set (m := resize (Z.to_nat (MaxIndexBytes (Segment c))) x00 (OS.data f)) in *.
  assert (Hm : len m = MaxIndexBytes (Segment c))
    by (unfold len, m; rewrite length_resize; lia).
  assert (H0 : 0 <= len (OS.data f)) by (unfold len; lia).
  set (i0 := {| file := _; mmap := m; size := _ |}) in *.
  assert (Hs0 : size i0 = len (OS.data f)) by (cbn [size i0]; apply uint64_small; lia).
  assert (Hb0 : 0 <= size i0 <= len (mmap i0)) by (rewrite Hs0; cbn [mmap i0]; lia).
  assert (Hb2 : len (mmap i0) < 2 ^ 63) by (cbn [mmap i0]; lia).
  pose proof (write_all_fits es i0 i Hb0 Hb2 Hw) as Hfit.
  cbn [mmap i0] in Hfit.
  assert (Hb1 : size i0 + 12 * len es < 2 ^ 64) by lia.
  destruct (write_all_Ok es i0 i Hb0 Hb1 Hw) as (H1 & H2 & H3 & H4).
  pose proof (write_all_len es i0 i Hb0 Hb1 Hw) as H5.
  cbn [mmap i0] in H2, H4, H5. rewrite Hs0 in *.
  rewrite H3. cbn [file i0 OS.with_data OS.opened OS.plan OS.name OS.data].
  repeat split; try assumption; try lia.
  - unfold len in *. lia.
  - rewrite H4. f_equal. unfold m.
    rewrite take_resize_le by (unfold len in *; lia).
    unfold len. rewrite Nat2Z.id. apply resize_all.
Qed.

End IndexOpenedWritten.

(** X6. Restart of an index in use: an index opened on an open file and
    written to, all system calls succeeding, is closed and a new index is
    opened on the file with the same configuration; the new index has the
    same [size], and its [Read] answers every argument as the old one
    did. *)
Theorem index_restart_preserves_reads (c : Index.Config) (f f1 : OS.File)
    (i0 i : Index.index) (es : list (Z * Z)) :
  0 < Index.MaxIndexBytes (Index.Segment c) < 2 ^ 63 ->
  OS.opened f = true -> OS.plan f = [] ->
  len (OS.data f) <= Index.MaxIndexBytes (Index.Segment c) ->
  Index.newIndex f c = (f1, Ok i0) ->
  Index.write_all i0 es = (i, Ok tt) ->
  exists closed f2 reopened,
    Index.Close i = (closed, Ok tt)
    /\ len (OS.data (Index.file closed)) = Index.size i
    /\ Index.newIndex (OS.OpenFile (Index.file closed)) c = (f2, Ok reopened)
    /\ Index.size reopened = Index.size i
    /\ forall in_ : Z, Index.Read reopened in_ = Index.Read i in_.
Proof.
  intros HM Ho Hp Hle Hn Hw.
  destruct (opened_then_written c HM f f1 i0 i es Ho Hp Hle Hn Hw)
    as (A1 & A2 & _ & A4 & A5 & A6 & A7 & _).
  apply (restart_recovers c HM i); auto.
  unfold len in *. lia.
Qed.

Lemma index_restart_preserves_reads_witness :
  exists closed f2 reopened,
    Index.Close Examples.two_entries = (closed, Ok tt)
    /\ len (OS.data (Index.file closed)) = Index.size Examples.two_entries
    /\ Index.newIndex (OS.OpenFile (Index.file closed)) (Examples.config 1024)
       = (f2, Ok reopened)
    /\ Index.size reopened = Index.size Examples.two_entries
    /\ forall in_ : Z, Index.Read reopened in_ = Index.Read Examples.two_entries in_.
Proof.
  apply (index_restart_preserves_reads (Examples.config 1024)
           (Examples.empty_file "index_test") (Index.file Examples.fresh_index)
           Examples.fresh_index Examples.two_entries [(0, 0); (1, 10)]).
  - simpl. lia.
  - reflexivity.
  - reflexivity.
  - vm_compute. discriminate.
  - vm_compute. reflexivity.
  - vm_compute. reflexivity.
Defined.

(** X7. The file an index leaves behind: after the entries [es] have been
    written to an index opened on an empty file and the index has been
    closed, all system calls succeeding, the file is closed and holds
    exactly the twelve-byte encodings of the entries, in order, with no
    padding. *)
Theorem index_close_persists_entries (c : Index.Config) (f f1 : OS.File)
    (i0 i : Index.index) (es : list (Z * Z)) :
  0 < Index.MaxIndexBytes (Index.Segment c) < 2 ^ 63 ->
  OS.opened f = true -> OS.plan f = [] -> OS.data f = [] ->
  Index.newIndex f c = (f1, Ok i0) ->
  Index.write_all i0 es = (i, Ok tt) ->
  exists closed,
    Index.Close i = (closed, Ok tt)
    /\ OS.data (Index.file closed) = Index.encode_all es
    /\ OS.opened (Index.file closed) = false.
Proof.
  intros HM Ho Hp Hd Hn Hw.
  assert (Hle : len (OS.data f) <= Index.MaxIndexBytes (Index.Segment c))
    by (rewrite Hd; unfold len; cbn [length]; lia).
  destruct (opened_then_written c HM f f1 i0 i es Ho Hp Hle Hn Hw)
    as (A1 & A2 & _ & A4 & A5 & A6 & A7 & A8).
  rewrite Hd in A6, A8. change (len (@nil byte)) with 0 in A6, A8.
  rewrite Close_quiet by (auto; unfold len in *; lia).
  eexists. split; [reflexivity|]. cbn [Index.file OS.data OS.opened].
  split; [|reflexivity].
  rewrite A8, A6. cbn [app].
  replace (Z.to_nat (0 + 12 * len es)) with (length (Index.encode_all es))
    by (rewrite encode_all_length; unfold len; lia).
  apply take_app_length.
Qed.

Lemma index_close_persists_entries_witness :
  exists closed,
    Index.Close Examples.two_entries = (closed, Ok tt)
    /\ OS.data (Index.file closed) = Index.encode_all [(0, 0); (1, 10)]
    /\ OS.opened (Index.file closed) = false.
Proof.
  apply (index_close_persists_entries (Examples.config 1024)
           (Examples.empty_file "index_test") (Index.file Examples.fresh_index)
           Examples.fresh_index Examples.two_entries [(0, 0); (1, 10)]).
  - simpl. lia.
  - reflexivity.
  - reflexivity.
  - reflexivity.
  - vm_compute. reflexivity.
  - vm_compute. reflexivity.
Defined.

(** X8. [Close] stops at the first failing synchronisation and returns its
    error: when the map-sync fails nothing has reached the file, when the
    file-sync fails the file has the bytes of the mapping; in both cases
    the file keeps its length (it is not truncated) and stays open. *)
Theorem index_close_sync_failure (i : Index.index) (k errno : nat)
    (rest : list OS.outcome) :
  (OS.plan (Index.file i) = OS.Fault k errno :: rest ->
   snd (Index.Close i) = Err (SyscallError errno)
   /\ OS.data (Index.file (fst (Index.Close i))) = OS.data (Index.file i)
   /\ OS.opened (Index.file (fst (Index.Close i))) = OS.opened (Index.file i))
  /\ (OS.opened (Index.file i) = true ->
      OS.plan (Index.file i) = OS.Done :: OS.Fault k errno :: rest ->
      length (OS.data (Index.file i)) = length (Index.mmap i) ->
      snd (Index.Close i) = Err (SyscallError errno)
      /\ OS.data (Index.file (fst (Index.Close i))) = Index.mmap i
      /\ OS.opened (Index.file (fst (Index.Close i))) = true).
Proof.
  split.
  - intros Hp. unfold Index.Close, Gommap.Sync, OS.syscall. rewrite Hp.
    cbn. auto.
  - intros Ho Hp Hl.
    unfold Index.Close, Gommap.Sync, OS.File_Sync, OS.syscall. rewrite Hp.
    cbn [OS.with_data OS.opened OS.plan OS.data OS.name]. rewrite Ho.
    cbn [fst snd Index.file OS.data OS.opened].
    rewrite Hl, firstn_all. rewrite <- Hl, drop_all, app_nil_r. auto.
Qed.

Lemma index_close_sync_failure_witness :
  snd (Index.Close Examples.two_entries_bad_sync) = Err (SyscallError 5)
  /\ OS.data (Index.file (fst (Index.Close Examples.two_entries_bad_sync)))
     = OS.data (Index.file Examples.two_entries_bad_sync)
  /\ OS.opened (Index.file (fst (Index.Close Examples.two_entries_bad_sync)))
     = OS.opened (Index.file Examples.two_entries_bad_sync).
Proof.
  apply (proj1 (index_close_sync_failure Examples.two_entries_bad_sync 0 5 [])).
  reflexivity.
Defined.

(** X9. [Name] is the path of the file the index was opened on, and no
    call changes it. *)
Theorem index_name_stable (f f' : OS.File) (c : Index.Config) (i0 : Index.index)
    (cs : list Index.call) :
  Index.newIndex f c = (f', Ok i0) ->
  Index.Name (Index.run i0 cs) = OS.name f.
Proof.
  intros Hn.
  assert (H0 : Index.Name i0 = OS.name f).
  { revert Hn. unfold Index.newIndex, OS.Stat, OS.Truncate, Gommap.Map, Index.Name.
    destruct (OS.syscall f) as [o1 f1] eqn:E1. apply syscall_name in E1.
    destruct o1; [|discriminate].
    destruct (OS.syscall f1) as [o2 f2] eqn:E2. apply syscall_name in E2.
    destruct o2; [|discriminate].
    destruct (_ <? 0); [discriminate|].
    cbn [OS.with_data OS.opened].
    destruct (OS.opened f2); [|discriminate].
    destruct (OS.syscall _) as [o3 f3] eqn:E3. apply syscall_name in E3.
    cbn [OS.with_data OS.name] in E3.
    destruct o3; [|discriminate].
    destruct (_ =? 0); [discriminate|].
    intros H; inversion H; subst. cbn [Index.file]. congruence. }
  rewrite <- H0. clear Hn H0. revert i0.
  induction cs as [|call cs IH]; intros i0; [reflexivity|].
  unfold Index.run in *. cbn [fold_left]. rewrite IH.
  destruct call; cbn [Index.step]; auto using Write_name, Close_name.
Qed.

Lemma index_name_stable_witness :
  Index.Name (Index.run Examples.fresh_index
                [Index.CallWrite 0 0; Index.CallRead (-1); Index.CallClose])
  = OS.name (Examples.empty_file "index_test").
Proof.
  apply (index_name_stable (Examples.empty_file "index_test")
           (Index.file Examples.fresh_index) (Examples.config 1024)).
  vm_compute. reflexivity.
Defined.

(** X10. A capacity that cannot be mapped: with [MaxIndexBytes = 0]
    [newIndex] fails, and by then it has truncated the file to nothing;
    with [MaxIndexBytes >= 2^63] it fails at the truncation, the length
    being negative as an [int64], and the file keeps its bytes. *)
Theorem index_open_bad_capacity (f : OS.File) (c : Index.Config) :
  OS.opened f = true -> OS.plan f = [] ->
  (Index.MaxIndexBytes (Index.Segment c) = 0 ->
   snd (Index.newIndex f c) = Err EINVAL
   /\ OS.data (fst (Index.newIndex f c)) = [])
  /\ (2 ^ 63 <= Index.MaxIndexBytes (Index.Segment c) < 2 ^ 64 ->
      snd (Index.newIndex f c) = Err EINVAL
      /\ OS.data (fst (Index.newIndex f c)) = OS.data f).
Proof.
  intros Ho Hp. unfold Index.newIndex, OS.Stat, OS.Truncate, Gommap.Map.
  split; intros HM.
  - rewrite HM. change (int64 0 <? 0) with false.
    repeat first
      [ rewrite syscall_quiet by (cbn; assumption)
      | rewrite Ho
      | progress cbn [OS.with_data OS.opened OS.data OS.plan OS.name] ].
    change (Z.to_nat (int64 0)) with 0%nat. rewrite resize_0.
    cbn. auto.
  - rewrite syscall_quiet by assumption.
    rewrite syscall_quiet by assumption.
    destruct (int64 _ <? 0) eqn:E; [cbn; auto|].
    apply Z.ltb_ge in E. unfold int64 in E. zdm.
Qed.

Lemma index_open_bad_capacity_witness :
  snd (Index.newIndex Examples.entries_file (Examples.config 0)) = Err EINVAL
  /\ OS.data (fst (Index.newIndex Examples.entries_file (Examples.config 0))) = [].
Proof.
  apply (proj1 (index_open_bad_capacity Examples.entries_file (Examples.config 0)
                  eq_refl eq_refl)).
  reflexivity.
Defined.

(** X11. A capacity smaller than the file: opening an index on a file of
    [n] entries with a capacity below [12 * n] cuts the file to the
    capacity but keeps [size = 12 * n]; [Read (-1)] then panics on a slice
    out of the mapped region, and every [Write] fails with [io.EOF]. *)
Theorem index_open_too_small (f : OS.File) (c : Index.Config) (n : Z) :
  OS.opened f = true -> OS.plan f = [] ->
  len (OS.data f) = 12 * n -> 1 <= n <= 2 ^ 32 ->
  0 < Index.MaxIndexBytes (Index.Segment c) < 12 * n ->
  exists f' i,
    Index.newIndex f c = (f', Ok i)
    /\ Index.size i = 12 * n
    /\ len (OS.data f') = Index.MaxIndexBytes (Index.Segment c)
    /\ Index.Read i (-1) = Panic
    /\ forall off pos : Z, Index.Write i off pos = (i, Err EOF).
Proof.
  intros Ho Hp Hl Hn HM.
  assert (HM' : 0 < Index.MaxIndexBytes (Index.Segment c) < 2 ^ 63) by lia.
  rewrite (newIndex_quiet c HM' f Ho Hp). eexists _, _. split; [reflexivity|].
  cbn [Index.size OS.with_data OS.data]. rewrite Hl, uint64_small by lia.
  set (m := resize _ _ _).
  assert (Hm : len m = Index.MaxIndexBytes (Index.Segment c))
    by (unfold len, m; rewrite length_resize; lia).
  split; [reflexivity|]. split; [exact Hm|]. split.
  - unfold Index.Read. cbn [Index.size Index.mmap].
    destruct (12 * n =? 0) eqn:E0; [lia|].
    change (-1 =? -1) with true. cbv iota.
    rewrite totWidth_eq, offWidth_eq.
    replace (12 * n / 12 - 1) with (n - 1) by zdm.
    rewrite (uint64_small (n - 1)), (uint32_small (n - 1)) by lia.
    rewrite (uint64_small ((n - 1) * 12)) by lia.
    rewrite !uint64_small by lia.
    destruct (12 * n <? (n - 1) * 12 + 12) eqn:E1; [lia|].
    destruct (slice m ((n - 1) * 12) _) as [b1|]; [|reflexivity].
    unfold slice.
    destruct ((n - 1) * 12 + 12 <=? len m) eqn:E2; [lia|].
    now rewrite andb_false_r.
  - intros off pos. apply Write_full; cbn [Index.size Index.mmap]; lia.
Qed.

Lemma index_open_too_small_witness :
  exists f' i,
    Index.newIndex Examples.entries_file (Examples.config 12) = (f', Ok i)
    /\ Index.size i = 12 * 2
    /\ len (OS.data f') = 12
    /\ Index.Read i (-1) = Panic
    /\ forall off pos : Z, Index.Write i off pos = (i, Err EOF).
Proof.
  apply (index_open_too_small Examples.entries_file (Examples.config 12) 2).
  - reflexivity.
  - reflexivity.
  - vm_compute. reflexivity.
  - lia.
  - simpl. lia.
Defined.

(** X12. The capacity in entries: on an empty index whose mapped region
    has [m] bytes, a run of writes succeeds as a whole exactly when
    [12 * len es <= m]; [size] is then [12 * len es]. *)
Theorem index_capacity_in_entries (i : Index.index) (es : list (Z * Z)) :
  Index.size i = 0 -> len (Index.mmap i) < 2 ^ 63 ->
  ((exists i', Index.write_all i es = (i', Ok tt))
   <-> 12 * len es <= len (Index.mmap i))
  /\ (forall i', Index.write_all i es = (i', Ok tt) -> Index.size i' = 12 * len es).
Proof.
  intros Hs Hb.
  assert (H0 : 0 <= Index.size i <= len (Index.mmap i)) by (unfold len in *; lia).
  split; [split|].
  - intros [i' Hw]. pose proof (write_all_fits es i i' H0 Hb Hw). lia.
  - intros Hle. apply write_all_room; lia.
  - intros i' Hw. pose proof (write_all_fits es i i' H0 Hb Hw) as Hfit.
    assert (Hb1 : Index.size i + 12 * len es < 2 ^ 64) by lia.
    destruct (write_all_Ok es i i' H0 Hb1 Hw) as (H1 & _). lia.
Qed.

Lemma index_capacity_in_entries_witness :
  ((exists i', Index.write_all Examples.fresh_index [(0, 0); (1, 10)] = (i', Ok tt))
   <-> 12 * len [(0, 0); (1, 10)] <= len (Index.mmap Examples.fresh_index))
  /\ (forall i', Index.write_all Examples.fresh_index [(0, 0); (1, 10)] = (i', Ok tt) ->
                 Index.size i' = 12 * len [(0, 0); (1, 10)]).
Proof.
  apply (index_capacity_in_entries Examples.fresh_index [(0, 0); (1, 10)]).
  - reflexivity.
  - vm_compute. reflexivity.
Defined.

(** ** The store: sequences of records, reading, closing *)

Section StoreMore.
Import Store.








End StoreMore.





(** X15. The writer's error is sticky: once an [Append] has failed, every
    later [Append], [Read] and [Close] fails with the same error; [size],
    the file and the buffer stay as the failed [Append] left them, and the
    file is not closed. *)
Theorem store_error_is_sticky (s s1 : Store.store) (p : list byte) (e : error) :
  Store.Append s p = (s1, Err e) ->
  (forall q : list byte,
      snd (Store.Append s1 q) = Err e
      /\ Store.size (fst (Store.Append s1 q)) = Store.size s1
      /\ Store.File (fst (Store.Append s1 q)) = Store.File s1
      /\ Store.buf (fst (Store.Append s1 q)) = Store.buf s1)
  /\ (forall pos : Z,
         snd (Store.Read s1 pos) = Err e
         /\ Store.File (fst (Store.Read s1 pos)) = Store.File s1)
  /\ snd (Store.Close s1) = Err e
  /\ Store.File (fst (Store.Close s1)) = Store.File s1.
Proof.
  intros Ha.
  destruct (Append_spec _ _ _ _ Ha) as (_ & _ & _ & _ & Aerr & _).
  destruct (Aerr e eq_refl) as [_ He].
  assert (Hfl : Bufio.Flush (Store.File s1) (Store.buf s1)
                = (Store.File s1, Store.buf s1, Some e)).
  { unfold Bufio.Flush. now rewrite He. }
  assert (Hwr : forall q, Bufio.Write (Store.File s1) (Store.buf s1) q
                          = (Store.File s1, Store.buf s1, 0, Some e)).
  { intros q. unfold Bufio.Write. cbn [Bufio.write_loop].
    unfold Bufio.more. rewrite He. cbn [Bufio.is_nil]. rewrite andb_false_r.
    now rewrite He. }
  split; [|split].
  - intros q. unfold Store.Append, Store.binary_Write. rewrite Hwr. cbn. auto.
  - intros pos. unfold Store.Read. rewrite Hfl. cbn. auto.
  - unfold Store.Close. rewrite Hfl. cbn. auto.
Qed.

Lemma store_error_is_sticky_witness :
  let s1 := fst (Store.Append Examples.full_disk_store Examples.big_record) in
  snd (Store.Read s1 0) = Err (SyscallError 28)
  /\ Store.File (fst (Store.Read s1 0)) = Store.File s1.
Proof.
  intros s1.
  assert (Ha : Store.Append Examples.full_disk_store Examples.big_record
               = (s1, Err (SyscallError 28))) by (vm_compute; reflexivity).
  exact (proj1 (proj2 (store_error_is_sticky _ _ _ _ Ha)) 0).
Defined.

Section StoreClose.
Import Store.



(** A write that fits into the buffer goes there and touches no file. *)
Lemma Write_fits (f : OS.File) (b : Bufio.Writer) (p : list byte) :
  Bufio.err b = None -> len p <= Bufio.Available b ->
  Bufio.Write f b p
  = (f, {| Bufio.buf := Bufio.buf b ++ p; Bufio.err := None |}, len p, None).
Proof.
  intros He Hfit. unfold Bufio.Write. cbn [Bufio.write_loop].
  unfold Bufio.more.
  destruct (Bufio.Available b <? len p) eqn:E; [apply Z.ltb_lt in E; lia|].
  cbn [andb]. rewrite He.
  unfold Bufio.copy. rewrite take_ge by (unfold len in *; lia).
  reflexivity.
Qed.

(** An append whose frame fits into the buffer. *)
Lemma Append_buffered (s : store) (p : list byte) :
  Bufio.err (buf s) = None ->
  len (Bufio.buf (buf s)) + 8 + len p <= Bufio.defaultBufSize ->
  Append s p
  = ({| File := File s;
        buf := {| Bufio.buf := Bufio.buf (buf s) ++ frame p;
                        Bufio.err := None |};
        size := uint64 (size s + (len p + 8)) |},
     Ok (len p + 8, size s)).
Proof.
  intros He Hfit.
  assert (Hp : 0 <= len p) by (unfold len; lia).
  assert (Hb : 0 <= len (Bufio.buf (buf s))) by (unfold len; lia).
  unfold Bufio.defaultBufSize in Hfit.
  unfold Append, binary_Write.
  rewrite Write_fits;
    [| assumption
     | unfold Bufio.Available, Bufio.defaultBufSize, len in *;
       cbn [length Binary.PutUint64]; lia].
  rewrite Write_fits;
    [| reflexivity
     | unfold Bufio.Available, Bufio.defaultBufSize, len in *; cbn [Bufio.buf];
       rewrite length_app; cbn [length Binary.PutUint64]; lia].
  cbn [Bufio.buf]. rewrite lenWidth_eq, (uint64_small (len p + 8)) by lia.
  unfold frame. rewrite <- app_assoc. reflexivity.
Qed.

End StoreClose.





(** X18. [Append] is buffered: as long as the frame of the record fits into
    what is left of the writer's buffer, [Append] succeeds without touching
    the file; the frame is added to the buffer. *)
Theorem store_append_is_buffered (s : Store.store) (p : list byte) :
  Bufio.err (Store.buf s) = None ->
  len (Bufio.buf (Store.buf s)) + 8 + len p <= Bufio.defaultBufSize ->
  Store.Append s p
  = ({| Store.File := Store.File s;
        Store.buf := {| Bufio.buf := Bufio.buf (Store.buf s) ++ Store.frame p;
                        Bufio.err := None |};
        Store.size := uint64 (Store.size s + (len p + 8)) |},
     Ok (len p + 8, Store.size s)).
Proof. apply Append_buffered. Qed.

Lemma store_append_is_buffered_witness :
  Store.Append Examples.fresh_store Examples.hello_world
  = ({| Store.File := Store.File Examples.fresh_store;
        Store.buf := {| Bufio.buf := Bufio.buf (Store.buf Examples.fresh_store)
                                     ++ Store.frame Examples.hello_world;
                        Bufio.err := None |};
        Store.size := uint64 (Store.size Examples.fresh_store
                              + (len Examples.hello_world + 8)) |},
     Ok (len Examples.hello_world + 8, Store.size Examples.fresh_store)).
Proof.
  apply (store_append_is_buffered Examples.fresh_store Examples.hello_world).
  - reflexivity.
  - vm_compute. discriminate.
Defined.



(** X20. On an index that satisfies its invariant and whose mapped region
    has an [int] length, no call panics: [Read] returns an entry or
    [io.EOF], [Write] succeeds or returns [io.EOF]. *)
Theorem index_never_panics (i : Index.index) :
  Index.index_ok i -> len (Index.mmap i) < 2 ^ 63 ->
  (forall in_ : Z,
      Index.Read i in_ = Err EOF \/ exists e : Z * Z, Index.Read i in_ = Ok e)
  /\ (forall off pos : Z,
         Index.Write i off pos = (i, Err EOF)
         \/ exists i', Index.Write i off pos = (i', Ok tt)).
Proof.
  intros [_ Hs] Hb. split.
  - intros in_.
    set (k := if in_ =? -1 then uint32 (uint64 (Index.size i / Index.totWidth - 1))
              else uint32 in_).
    destruct (Z.lt_ge_cases (Index.size i) (12 * k + 12)) as [Hlt|Hge].
    + left. now apply (Read_absent i in_ k).
    + right. eexists. apply (Read_present i in_ k); [reflexivity | lia | lia].
  - intros off pos.
    destruct (Z.lt_ge_cases (len (Index.mmap i)) (Index.size i + 12)) as [Hfull|Hroom].
    + left. apply Write_full; lia.
    + right. eexists. apply Write_room; lia.
Qed.

Lemma index_never_panics_witness :
  (forall in_ : Z,
      Index.Read Examples.two_entries in_ = Err EOF
      \/ exists e : Z * Z, Index.Read Examples.two_entries in_ = Ok e)
  /\ (forall off pos : Z,
         Index.Write Examples.two_entries off pos = (Examples.two_entries, Err EOF)
         \/ exists i', Index.Write Examples.two_entries off pos = (i', Ok tt)).
Proof.
  apply (index_never_panics Examples.two_entries).
  - unfold Index.index_ok. vm_compute. split; [reflexivity | split; discriminate].
  - vm_compute. reflexivity.
Defined.
